(** * scratch.py: boundary fetch, within-state area deciles, sentinel
      cleanup and centroid labels

    A shallow embedding of [scratch.py].  The script is glue code around
    [requests], [pandas], [geopandas] and [matplotlib]; the calls it makes
    into those libraries are modelled here by the algorithm the library
    runs ([pd.qcut], [pd.concat], [dict] assignment, [DataFrame] boolean
    indexing), written out as executable functions.

    Numbers.  [AREALAND] is an [int64] column ([astype(int)]) and is a
    [Z].  [pd.qcut] bins it in [float64]: the quantile edges are computed
    by [np.percentile] with its roundings, and the values are compared to
    the edges as [float64].  A [float64] is kept here as the rational it
    denotes and every operation rounds its exact result to the nearest
    double, ties to even ([Float64.round64]).  Coordinates, the axes
    extent and font sizes are rationals ([Q]); their rounding is not
    modelled. *)

From Stdlib Require Import String Ascii ZArith QArith Qpower Qround Qminmax.
From Stdlib Require Import List Bool Lia Lqa Morphisms Setoid.
From Stdlib Require Import DecimalString DecimalZ.
From Stdlib Require Import Permutation.
Import ListNotations.

Local Open Scope Z_scope.

(** ** IEEE 754 [binary64] *)

Module Float64.

(** The integer nearest to [n / d], a tie going to the even one. *)
Definition round_half_even (n d : Z) : Z :=
  let m := n / d in
  let r := n mod d in
  if 2 * r <? d then m
  else if d <? 2 * r then m + 1
  else if Z.even m then m else m + 1.

Definition nearest (y : Q) : Z := round_half_even (Qnum y) (Zpos (Qden y)).

(** The exponent [e] of a positive number: [2^e <= a < 2^(e+1)]. *)
Definition exponent (a : Q) : Z :=
  let e0 := Z.log2 (Qnum a) - Z.log2 (Zpos (Qden a)) in
  if Qle_bool (2 ^ e0) a then e0 else e0 - 1.

(** A positive number rounded to 53 significant bits. *)
Definition round_pos (a : Q) : Q :=
  let e := exponent a in
  Qred (inject_Z (nearest (a * 2 ^ (52 - e))) * 2 ^ (e - 52)).

(** The double nearest to [x].  The exponent range is left open: no
    number the binning computes from [int64] data overflows or is
    subnormal. *)
Definition round64 (x : Q) : Q :=
  if Qnum x =? 0 then 0%Q
  else if Qnum x <? 0 then (- round_pos (- x))%Q
  else round_pos x.

Definition add (x y : Q) : Q := round64 (x + y).
Definition sub (x y : Q) : Q := round64 (x - y).
Definition mul (x y : Q) : Q := round64 (x * y).
Definition div (x y : Q) : Q := round64 (x / y).

(** An integer converted to [float64]. *)
Definition of_int (z : Z) : Q := round64 (inject_Z z).

End Float64.

(** ** [pd.qcut(x, q, labels=False, duplicates="drop")] *)

Module Qcut.

(** Ascending sort of the group's values: the quantile is read off the
    sorted (partitioned) data. *)
Fixpoint insert_sorted (x : Z) (l : list Z) : list Z :=
  match l with
  | [] => [x]
  | y :: l' => if x <=? y then x :: l else y :: insert_sorted x l'
  end.

Fixpoint sort (l : list Z) : list Z :=
  match l with
  | [] => []
  | x :: l' => insert_sorted x (sort l')
  end.

(** [np.linspace(0, 1, q + 1)[k]]: [k * step] with [step = 1 / q], and
    the last entry set to the stop value. *)
Definition linspace (q k : nat) : Q :=
  if (k =? q)%nat then 1%Q
  else Float64.mul (Float64.of_int (Z.of_nat k))
                   (Float64.div 1 (Float64.of_int (Z.of_nat q))).

(** [int64] arithmetic wraps around. *)
Definition int64 (z : Z) : Z := (z + 2 ^ 63) mod 2 ^ 64 - 2 ^ 63.

(** numpy's [_lerp(a, b, t)] on two [int64] values: the difference is
    taken in [int64], [a + diff * t] in [float64], and
    [b - diff * (1 - t)] where [t >= 0.5]. *)
Definition lerp (a b : Z) (t : Q) : Q :=
  let diff_b_a := Float64.of_int (int64 (b - a)) in
  if Qle_bool (1 # 2) t
  then Float64.sub (Float64.of_int b) (Float64.mul diff_b_a (Float64.sub 1 t))
  else Float64.add (Float64.of_int a) (Float64.mul diff_b_a t).

(** numpy's [_quantile] with [method="linear"] for one quantile of the
    sorted [arr]: the virtual index [(n - 1) * quantile], its floor as the
    previous index and the next one after it, both replaced by [-1] (the
    last value) where the virtual index is at least [n - 1], and the
    interpolation at [gamma = virtual_index - previous_index]. *)
Definition np_quantile (arr : list Z) (quantile : Q) : Q :=
  let n := Z.of_nat (length arr) in
  let virtual_index := Float64.mul (Float64.of_int (n - 1)) quantile in
  if Qle_bool (Float64.of_int (n - 1)) virtual_index then
    let last := nth (length arr - 1) arr 0 in
    lerp last last (Float64.sub virtual_index (Float64.of_int (-1)))
  else
    let previous_index := Qfloor virtual_index in
    let gamma := Float64.sub virtual_index (Float64.of_int previous_index) in
    lerp (nth (Z.to_nat previous_index) arr 0)
         (nth (Z.to_nat (previous_index + 1)) arr 0) gamma.

(** [np.percentile(arr, p)] divides [p] by 100. *)
Definition np_percentile (arr : list Z) (p : Q) : Q :=
  np_quantile arr (Float64.div p 100).

(** [x.quantile(np.linspace(0, 1, q + 1))]: pandas hands [qs * 100.0] to
    [np.percentile].  These are the [q + 1] bin edges. *)
Definition quantile_edges (x : list Z) (q : nat) : list Q :=
  map (fun k => np_percentile (sort x) (Float64.mul (linspace q k) 100))
      (seq 0 (q + 1)).

(** [algos.unique]: the distinct values in order of first appearance. *)
Fixpoint unique_aux (seen : list Q) (l : list Q) : list Q :=
  match l with
  | [] => []
  | b :: l' =>
      if existsb (Qeq_bool b) seen then unique_aux seen l'
      else b :: unique_aux (b :: seen) l'
  end.

Definition unique (l : list Q) : list Q := unique_aux [] l.

(** [_bins_to_cuts] with [duplicates="drop"]: the edges are replaced by
    their distinct values when some edge repeats, unless there are exactly
    two edges. *)
Definition drop_duplicates (bins : list Q) : list Q :=
  let unique_bins := unique bins in
  if (length unique_bins <? length bins)%nat && negb (length bins =? 2)%nat
  then unique_bins else bins.

(** [bins.searchsorted(v, side="left")]: numpy searches by bisection,
    which on edges in ascending order finds the first index [i] with
    [v <= bins[i]], or [len(bins)] when there is none.  The edges are in
    ascending order whenever [float64] holds the data exactly
    ([quantile_edges_ascending] below). *)
Fixpoint searchsorted_left (bins : list Q) (v : Q) : nat :=
  match bins with
  | [] => 0%nat
  | b :: bins' =>
      if negb (Qle_bool v b) then S (searchsorted_left bins' v) else 0%nat
  end.

(** The bin index of one value: [ids = searchsorted], then
    [ids[x == bins[0]] = 1] ([include_lowest]); the value is missing
    ([NaN]) where [ids == len(bins)] or [ids == 0]; otherwise [ids - 1]. *)
Definition bin_id (bins : list Q) (v : Q) : nat :=
  match bins with
  | b0 :: _ => if Qeq_bool v b0 then 1%nat else searchsorted_left bins v
  | [] => searchsorted_left bins v
  end.

Definition cut_one (bins : list Q) (v : Q) : option Z :=
  let ids := bin_id bins v in
  if (ids =? length bins)%nat || (ids =? 0)%nat then None
  else Some (Z.of_nat ids - 1).

(** The bins [qcut] cuts with, and the number of buckets they delimit. *)
Definition bins_of (x : list Z) (q : nat) : list Q :=
  drop_duplicates (quantile_edges x q).

Definition buckets (x : list Z) (q : nat) : Z :=
  Z.of_nat (length (bins_of x q)) - 1.

(** The [int64] values are compared with the [float64] edges as
    [float64]. *)
Definition qcut (x : list Z) (q : nat) : list (option Z) :=
  let bins := bins_of x q in
  map (fun v => cut_one bins (Float64.of_int v)) x.

End Qcut.

(** [NaN + 1] is [NaN]. *)
Definition add_one (c : option Z) : option Z :=
  match c with Some i => Some (i + 1) | None => None end.

(** The function the script hands to [transform]:
    [lambda x: pd.qcut(x, 20, labels=False, duplicates="drop") + 1]. *)
Definition decile_lambda (x : list Z) : list (option Z) :=
  map add_one (Qcut.qcut x 20).

(** ** The Geo Feature Table *)

(** One fetched feature, with the columns the script asks for.  The casts
    of lines 73-75 ([astype(int)], [astype(float)]) are taken as done: a
    value that does not cast raises there and ends the run.  [AREALAND]
    is the value of the [int64] column after the cast, an integer from
    [-2^63] to [2^63 - 1]; the properties below that need a bound on it
    say so. *)
Record Feature := mkFeature {
  STATE : string;
  NAME : string;
  AREALAND : Z;
  CENTLAT : Q;
  CENTLON : Q
}.

Definition Table := list Feature.

(** A row of [stacked] once the [DECILE] column is assigned; [None] is
    [NaN]. *)
Record Row := mkRow {
  feature :> Feature;
  DECILE : option Z
}.

(** [stacked.groupby("STATE")["AREALAND"]]: the [AREALAND] values of the
    rows of one state, in table order. *)
Definition same_state (s : string) (r : Feature) : bool := String.eqb (STATE r) s.

Definition group_column (t : Table) (s : string) : list Z :=
  map AREALAND (filter (same_state s) t).

(** [.transform(f)]: [f] is applied to each group's column and each row
    receives the entry of its group's result at the row's position within
    the group.  [before] holds the rows already passed. *)
Fixpoint transform_rows (f : list Z -> list (option Z)) (t before rest : Table)
  : list (option Z) :=
  match rest with
  | [] => []
  | r :: rest' =>
      nth (length (group_column before (STATE r)))
          (f (group_column t (STATE r))) None
        :: transform_rows f t (before ++ [r]) rest'
  end.

Definition groupby_transform (f : list Z -> list (option Z)) (t : Table)
  : list (option Z) :=
  transform_rows f t [] t.

(** Lines 76-78: [stacked["DECILE"] = ...]. *)
Definition assign_decile (t : Table) : list Row :=
  map (fun p => mkRow (fst p) (snd p))
      (combine t (groupby_transform decile_lambda t)).

(** ** Exceptions, the interpreter state and the monad of the script *)

Inductive exn_class :=
  | ConnectionError
  | ReadTimeout
  | HTTPError
  | RequestsJSONDecodeError
  | KeyError
  | ValueError
  | TypeError
  | UnboundLocalError
  | OtherException.

Record exn := mkExn { exn_cls : exn_class; exn_msg : string }.

(** [isinstance(e, requests.exceptions.RequestException)]. *)
Definition is_RequestException (e : exn) : bool :=
  match exn_cls e with
  | ConnectionError | ReadTimeout | HTTPError | RequestsJSONDecodeError => true
  | _ => false
  end.

(** [isinstance(e, (KeyError, ValueError))]; the JSON decode error of
    [requests] derives from [ValueError] too. *)
Definition is_KeyError_or_ValueError (e : exn) : bool :=
  match exn_cls e with
  | KeyError | ValueError | RequestsJSONDecodeError => true
  | _ => false
  end.

(** The module-level [geo_data] (a [defaultdict], kept in insertion order)
    and what has been printed. *)
Record World := mkWorld {
  geo_data : list (Z * Table);
  stdout : list string
}.

(** A computation runs on the world and either returns or raises; what it
    did to the world before raising stays done. *)
Definition M (A : Type) : Type := World -> (exn + A) * World.

Definition ret {A} (a : A) : M A := fun w => (inr a, w).

Definition bind {A B} (c : M A) (k : A -> M B) : M B :=
  fun w =>
    match c w with
    | (inr a, w') => k a w'
    | (inl e, w') => (inl e, w')
    end.

Definition raise {A} (e : exn) : M A := fun w => (inl e, w).

Definition try_except {A} (body : M A) (handler : exn -> M A) : M A :=
  fun w =>
    match body w with
    | (inr a, w') => (inr a, w')
    | (inl e, w') => handler e w'
    end.

Definition lift {A} (r : exn + A) : M A := fun w => (r, w).

Declare Scope py_scope.
Delimit Scope py_scope with py.
Notation "x <- c ;; k" := (bind c (fun x => k))
  (at level 61, c at next level, right associativity) : py_scope.
Notation "c ;; k" := (bind c (fun _ => k))
  (at level 61, right associativity) : py_scope.

Definition print (line : string) : M unit :=
  fun w => (inr tt, mkWorld (geo_data w) (stdout w ++ [line])).

(** [d[key] = value] on a [dict]: an existing key keeps its place. *)
Fixpoint dict_set (d : list (Z * Table)) (key : Z) (value : Table) : list (Z * Table) :=
  match d with
  | [] => [(key, value)]
  | (k, v) :: d' =>
      if k =? key then (k, value) :: d' else (k, v) :: dict_set d' key value
  end.

Fixpoint dict_get (d : list (Z * Table)) (key : Z) : option Table :=
  match d with
  | [] => None
  | (k, v) :: d' => if k =? key then Some v else dict_get d' key
  end.

Definition values (d : list (Z * Table)) : list Table := map snd d.

(** [geo_data[layer_id] = table]. *)
Definition geo_data_setitem (layer_id : Z) (table : Table) : M unit :=
  fun w => (inr tt, mkWorld (dict_set (geo_data w) layer_id table) (stdout w)).

(** [geo_data[layer_id]] read: a [defaultdict(gpd.GeoDataFrame)] stores and
    returns an empty table for a missing key. *)
Definition geo_data_getitem (layer_id : Z) : M Table :=
  fun w =>
    match dict_get (geo_data w) layer_id with
    | Some table => (inr table, w)
    | None => (inr [], mkWorld (dict_set (geo_data w) layer_id []) (stdout w))
    end.

(** ** The boundary fetcher, lines 14-45 *)

Inductive param_value :=
  | PStr (s : string)
  | PInt (z : Z).

(** The arguments of one [requests.get] call: the URL, the [params]
    mapping sent as the query string, and the [timeout] keyword ([None]
    when the call does not pass it: the request then waits without
    limit). *)
Record GetCall := mkGetCall {
  call_url : string;
  call_params : list (string * param_value);
  call_timeout : option Z
}.

(** A member of the answer, by what [gpd.GeoDataFrame.from_features]
    does with it: a list of features with their properties; a list with a
    feature that lacks the member [missing] ([feature["geometry"]] and
    [feature["properties"]] are read from each); any other value, with
    the text of the [TypeError] that iterating it or indexing one of its
    items raises. *)
Inductive jvalue :=
  | JFeatures (features : list Feature)
  | JIncompleteFeatures (missing : string)
  | JOtherValue (type_error : string).

(** What [response.json()] returns: an object, or a value of another
    type, with the text of the [TypeError] that indexing it with a
    string raises. *)
Inductive json :=
  | JObject (members : list (string * jvalue))
  | JNotObject (type_error : string).

(** What the server answered: the status code with the text of the
    [HTTPError] that [raise_for_status] builds from it, the body as
    [response.text] decodes it (held in UTF-8), and what
    [response.json()] makes of the body. *)
Record Response := mkResponse {
  status_code : Z;
  status_error_text : string;
  text : string;
  json_result : exn + json
}.

(** The network, as the script sees it: a call raises or returns. *)
Definition Network := GetCall -> exn + Response.

Local Open Scope string_scope.

Definition str_of_Z (z : Z) : string := NilEmpty.string_of_int (Z.to_int z).
Definition str_of_nat (n : nat) : string := NilEmpty.string_of_uint (Nat.to_uint n).

Definition default_service : string := "TIGERweb/tigerWMS_Current".

Definition API_URL (service : string) (layer_id : Z) : string :=
  "https://tigerweb.geo.census.gov/arcgis/rest/services/" ++ service
    ++ "/MapServer/" ++ str_of_Z layer_id ++ "/query".

Definition params (where_clause fields : string) : list (string * param_value) :=
  [ ("where", PStr where_clause);
    ("outFields", PStr fields);
    ("outSR", PStr "4326");
    ("f", PStr "geojson");
    ("returnGeometry", PStr "false");
    ("returnCountOnly", PStr "false");
    ("resultOffset", PInt 0);
    ("resultRecordCount", PInt 100000);
    ("timeout", PInt 60) ].

(** Line 36: [requests.get(API_URL, params=params)]. *)
Definition the_get_call (service : string) (layer_id : Z) (where_clause fields : string)
  : GetCall :=
  mkGetCall (API_URL service layer_id) (params where_clause fields) None.

(** [response.raise_for_status()]: raises for a status from 400 to 599. *)
Definition raise_for_status (response : Response) : M unit :=
  if ((400 <=? status_code response) && (status_code response <? 600))%Z
  then raise (mkExn HTTPError (status_error_text response))
  else ret tt.

Fixpoint members_get (members : list (string * jvalue)) (key : string) : option jvalue :=
  match members with
  | [] => None
  | (k, v) :: members' => if String.eqb k key then Some v else members_get members' key
  end.

(** [js["features"]]: [str(KeyError('features'))] is the quoted key. *)
Definition json_getitem (js : json) (key : string) : M jvalue :=
  match js with
  | JObject members =>
      match members_get members key with
      | Some v => ret v
      | None => raise (mkExn KeyError ("'" ++ key ++ "'"))
      end
  | JNotObject type_error => raise (mkExn TypeError type_error)
  end.

(** [gpd.GeoDataFrame.from_features]. *)
Definition from_features (v : jvalue) : M Table :=
  match v with
  | JFeatures features => ret features
  | JIncompleteFeatures missing => raise (mkExn KeyError ("'" ++ missing ++ "'"))
  | JOtherValue type_error => raise (mkExn TypeError type_error)
  end.

(** [s[:n]] on a [str]: the first [n] characters.  The string is held in
    UTF-8, where the bytes [10xxxxxx] continue a character. *)
Definition is_continuation (c : ascii) : bool :=
  (128 <=? nat_of_ascii c)%nat && (nat_of_ascii c <? 192)%nat.

Fixpoint take_chars (n : nat) (s : string) : string :=
  match s with
  | EmptyString => EmptyString
  | String c s' =>
      if is_continuation c then String c (take_chars n s')
      else match n with
           | O => EmptyString
           | S n' => String c (take_chars n' s')
           end
  end.

Local Open Scope py_scope.

(** Lines 36-39, with [response] bound. *)
Definition fetch_body (layer_id : Z) (response : Response) : M unit :=
  raise_for_status response ;;
  js <- lift (json_result response) ;;
  features <- json_getitem js "features" ;;
  table <- from_features features ;;
  geo_data_setitem layer_id table ;;
  stored <- geo_data_getitem layer_id ;;
  print ("✅ Successfully fetched " ++ str_of_nat (length stored) ++ " centroids.").

(** Lines 41-45: the two [except] clauses, tried in order; [response] is
    the local variable, unbound when [requests.get] itself raised. *)
Definition except_clauses (response : option Response) (e : exn) : M unit :=
  if is_RequestException e then
    print ("❌ HTTP Request failed: " ++ exn_msg e)
  else if is_KeyError_or_ValueError e then
    print ("❌ Failed to parse response JSON: " ++ exn_msg e) ;;
    match response with
    | Some r => print ("   Server Response: " ++ take_chars 200 (text r) ++ "...")
    | None => raise (mkExn UnboundLocalError "response")
    end
  else raise e.

Definition get_tiger_polygons_at (net : Network) (service : string)
    (layer_id : Z) (where_clause fields : string) : M unit :=
  fun w =>
    match net (the_get_call service layer_id where_clause fields) with
    | inl e => except_clauses None e w
    | inr response =>
        try_except (fetch_body layer_id response) (except_clauses (Some response)) w
    end.

Definition get_tiger_polygons (net : Network) (layer_id : Z) (where_clause fields : string)
  : M unit :=
  get_tiger_polygons_at net default_service layer_id where_clause fields.

(** ** The parallel fetch, lines 48-70 *)

(** The two workers write different keys of [geo_data]; which of them
    writes first is the scheduler's choice. *)
Inductive schedule := PlacesFirst | CountysubsFirst.

(** A submitted task: the worker runs it and keeps what it raised for
    [Future.result()]. *)
Definition submit {A} (task : M A) : M (exn + A) :=
  fun w => let (r, w') := task w in (inr r, w').

Definition future_result {A} (future : exn + A) : M A := lift future.

Definition places_layer : Z := 28.
Definition countysubs_layer : Z := 22.
Definition fetched_fields : string := "STATE,NAME,AREALAND,CENTLAT,CENTLON".
Definition countysubs_where : string :=
  "NAME LIKE '%township' OR NAME LIKE '%town' OR NAME LIKE '%village' OR NAME LIKE '%borough'".

Definition places_task (net : Network) : M unit :=
  get_tiger_polygons net places_layer "1=1" fetched_fields.

Definition countysubs_task (net : Network) : M unit :=
  get_tiger_polygons net countysubs_layer countysubs_where fetched_fields.

Definition run_pool (net : Network) (s : schedule) : M ((exn + unit) * (exn + unit)) :=
  match s with
  | PlacesFirst =>
      future_places <- submit (places_task net) ;;
      future_countysubs <- submit (countysubs_task net) ;;
      ret (future_places, future_countysubs)
  | CountysubsFirst =>
      future_countysubs <- submit (countysubs_task net) ;;
      future_places <- submit (places_task net) ;;
      ret (future_places, future_countysubs)
  end.

Definition fetch_all (net : Network) (s : schedule) : M unit :=
  try_except
    (futures <- run_pool net s ;;
     future_result (fst futures) ;;
     future_result (snd futures))
    (fun exc => print ("❌ A master fetching task failed: " ++ exn_msg exc)).

(** ** Concatenation, line 72 *)

(** [pd.concat(objs, ignore_index=True)]: no objects is a [ValueError]. *)
Definition pd_concat (objs : list Table) : M Table :=
  match objs with
  | [] => raise (mkExn ValueError "No objects to concatenate")
  | _ => ret (concat objs)
  end.

Definition read_geo_data : M (list (Z * Table)) := fun w => (inr (geo_data w), w).

(** Lines 48-72. *)
Definition fetch_and_concat (net : Network) (s : schedule) : M Table :=
  fetch_all net s ;;
  d <- read_geo_data ;;
  pd_concat (values d).

(** Lines 73-78.  A frame built from no feature has no column, so
    [stacked["AREALAND"]] is a [KeyError] on an empty table. *)
Definition post_process (stacked : Table) : M (list Row) :=
  match stacked with
  | [] => raise (mkExn KeyError "'AREALAND'")
  | _ => ret (assign_decile stacked)
  end.

(** ** The Income-by-Geography Table, lines 101-102 *)

(** A block-group row: the income estimate ([None] is a missing value) and
    the cells of every other column. *)
Record IncomeRow := mkIncomeRow {
  other_columns : list (string * string);
  B19013_001E : option Z
}.

Definition sentinel : Z := (-666666666)%Z.

(** [gdf["B19013_001E"] == -666666666]; a missing value equals nothing. *)
Definition sentinel_mask (r : IncomeRow) : bool :=
  match B19013_001E r with
  | Some v => (v =? sentinel)%Z
  | None => false
  end.

(** [gdf.loc[mask, "B19013_001E"] = None]. *)
Definition sentinel_cleanup (gdf : list IncomeRow) : list IncomeRow :=
  map (fun r => if sentinel_mask r then mkIncomeRow (other_columns r) None else r) gdf.

(** ** The centroid labels, lines 133-172 *)

(** [ax.get_xlim()] and [ax.get_ylim()] after the choropleth is drawn. *)
Record Extent := mkExtent {
  xmin : Q;
  xmax : Q;
  ymin : Q;
  ymax : Q
}.

(** [stacked["DECILE"] >= 19]; [NaN >= 19] is false. *)
Definition decile_ge_19 (r : Row) : bool :=
  match DECILE r with
  | Some d => (19 <=? d)%Z
  | None => false
  end.

(** The boolean mask of lines 137-141. *)
Definition visible_mask (e : Extent) (r : Row) : bool :=
  Qle_bool (xmin e) (CENTLON r)
  && Qle_bool (CENTLON r) (xmax e)
  && Qle_bool (ymin e) (CENTLAT r)
  && Qle_bool (CENTLAT r) (ymax e)
  && decile_ge_19 r.

Definition visible_centroids (e : Extent) (stacked : list Row) : list Row :=
  filter (visible_mask e) stacked.

Definition y_offset : Q := 15 # 1000.

(** [max(3, 9 * (row["DECILE"] ** 3 / 20**3))]; Python's [max(3, v)] is
    [v] when [v > 3] and [3] otherwise, also for a [NaN]. *)
Definition fontsize (decile : option Z) : Q :=
  match decile with
  | Some d => Qmax 3 (9 * (inject_Z (d ^ 3) / inject_Z (20 ^ 3)))
  | None => 3
  end.

(** One [ax.text] call. *)
Record TextArtist := mkText {
  text_x : Q;
  text_y : Q;
  text_s : string;
  text_fontsize : Q
}.

Definition label_of (row : Row) : TextArtist :=
  mkText (CENTLON row) (CENTLAT row + y_offset) (NAME row) (fontsize (DECILE row)).

(** What lines 144-172 add to the axes: the scatter markers and the
    labels. *)
Record Figure := mkFigure {
  markers : list (Q * Q);
  labels : list TextArtist
}.

Definition draw_centroids (e : Extent) (stacked : list Row) : Figure :=
  let visible := visible_centroids e stacked in
  mkFigure (map (fun r : Row => (CENTLON r, CENTLAT r)) visible)
           (map label_of visible).

(** ** The script *)

(** What the run takes from outside: the network, the scheduler's choice,
    the table the Census helper returns and the extent the axes report
    once that table is plotted. *)
Record Inputs := mkInputs {
  net : Network;
  sched : schedule;
  census_table : list IncomeRow;
  plotted_extent : list IncomeRow -> Extent
}.

Record Outcome := mkOutcome {
  out_stacked : list Row;
  out_gdf : list IncomeRow;
  out_figure : Figure
}.

(** Line 102.  A frame built from no row has no column, so
    [gdf["B19013_001E"]] is a [KeyError] on an empty table. *)
Definition clean_income (gdf : list IncomeRow) : M (list IncomeRow) :=
  match gdf with
  | [] => raise (mkExn KeyError "'B19013_001E'")
  | _ => ret (sentinel_cleanup gdf)
  end.

(** The run, as far as the properties below go.  The calls into the
    Census helper (lines 80-101), [gdf.plot], [ctx.add_basemap] and the
    title are taken to return: the helper's answer and the extent of the
    plotted axes come in with [Inputs]. *)
Definition script (i : Inputs) : M Outcome :=
  concatenated <- fetch_and_concat (net i) (sched i) ;;
  stacked <- post_process concatenated ;;
  gdf <- clean_income (census_table i) ;;
  let extent := plotted_extent i gdf in
  ret (mkOutcome stacked gdf (draw_centroids extent stacked)).

Definition initial_world : World := mkWorld [] [].

Definition run_script (i : Inputs) : (exn + Outcome) * World := script i initial_world.

(** ** Vocabulary of the properties *)

(** [ascending l]: every element is at most every later one. *)
Fixpoint ascending (l : list Z) : Prop :=
  match l with
  | [] => True
  | x :: l' => (forall y, In y l' -> x <= y) /\ ascending l'
  end.



(** The smallest and the largest value of a group. *)
Definition group_min (x : list Z) : Z := nth 0 (Qcut.sort x) 0.
Definition group_max (x : list Z) : Z := nth (length x - 1) (Qcut.sort x) 0.

(** The quantile [np.percentile] works with for the [k]-th edge:
    [linspace(0, 1, q + 1)[k] * 100.0 / 100]. *)
Definition level (q k : nat) : Q :=
  Float64.div (Float64.mul (Qcut.linspace q k) 100) 100.

(** The [q + 1] quantiles start at 0, end at 1 and do not decrease. *)
Definition levels_ok (q : nat) : bool :=
  forallb (fun k => Qle_bool 0 (level q k) && Qle_bool (level q k) (level q (S k)))
          (seq 0 q)
  && Qeq_bool (level q 0) 0 && Qeq_bool (level q q) 1.

(** The non-negative integers below [2^53]: [float64] holds each of them,
    and the half of each of them, exactly. *)
Definition exactly_representable (z : Z) : bool := ((0 <=? z) && (z <? 2 ^ 53))%Z.

(** A table of fewer than [2^53] rows whose land areas are all of that
    kind. *)
Definition areas_exact (t : Table) : bool :=
  exactly_representable (Z.of_nat (length t))
  && forallb (fun f => exactly_representable (AREALAND f)) t.

(** The decile of the value [v] in the group [x]. *)
Definition decile_of (x : list Z) (v : Z) : option Z :=
  add_one (Qcut.cut_one (Qcut.bins_of x 20) (Float64.of_int v)).

(** The number of buckets the binning of one state ends with. *)
Definition state_buckets (t : Table) (s : string) : Z :=
  Qcut.buckets (group_column t s) 20.

(** The table a fetch stores: the call returns, the status does not
    raise, the body parses to an object and its ["features"] member is a
    feature list. *)
Definition fetched_rows (r : exn + Response) : option Table :=
  match r with
  | inl _ => None
  | inr resp =>
      if ((400 <=? status_code resp) && (status_code resp <? 600))%Z then None
      else match json_result resp with
           | inr (JObject members) =>
               match members_get members "features" with
               | Some (JFeatures rows) => Some rows
               | _ => None
               end
           | _ => None
           end
  end.

(** The failures the fetcher catches, named after the clause that catches
    them, with the text of the exception. *)
Inductive failure_kind := HttpRequestFailed | ParseFailed.

Definition caught_by (e : exn) : option (failure_kind * string) :=
  if is_RequestException e then Some (HttpRequestFailed, exn_msg e)
  else if is_KeyError_or_ValueError e then Some (ParseFailed, exn_msg e)
  else None.

Definition failure_of (r : exn + Response) : option (failure_kind * string) :=
  match r with
  | inl e => if is_RequestException e then Some (HttpRequestFailed, exn_msg e) else None
  | inr resp =>
      if ((400 <=? status_code resp) && (status_code resp <? 600))%Z
      then Some (HttpRequestFailed, status_error_text resp)
      else match json_result resp with
           | inl e => caught_by e
           | inr (JObject members) =>
               match members_get members "features" with
               | None => Some (ParseFailed, "'features'")
               | Some (JIncompleteFeatures missing) =>
                   Some (ParseFailed, "'" ++ missing ++ "'")
               | Some _ => None
               end
           | inr (JNotObject _) => None
           end
  end.

(** The failures handled under the name the handler gives them: a
    transport failure (the request raised a request exception, or the
    status is an error status) in the first clause, a parse failure (a
    missing key, or a body that does not decode, reported as a plain
    [ValueError]) in the second.  A decoding error that is itself a
    request exception is not among them: the first clause catches it
    under the words "HTTP Request failed". *)
Definition handled_failure (r : exn + Response) : option (failure_kind * string) :=
  match r with
  | inl e => if is_RequestException e then Some (HttpRequestFailed, exn_msg e) else None
  | inr resp =>
      if ((400 <=? status_code resp) && (status_code resp <? 600))%Z
      then Some (HttpRequestFailed, status_error_text resp)
      else match json_result resp with
           | inl e =>
               if is_RequestException e then None
               else if is_KeyError_or_ValueError e then Some (ParseFailed, exn_msg e)
               else None
           | inr (JObject members) =>
               match members_get members "features" with
               | None => Some (ParseFailed, "'features'")
               | Some (JIncompleteFeatures missing) =>
                   Some (ParseFailed, "'" ++ missing ++ "'")
               | Some _ => None
               end
           | inr (JNotObject _) => None
           end
  end.

Definition body_of (r : exn + Response) : string :=
  match r with
  | inl _ => ""
  | inr resp => text resp
  end.

(** The lines each clause prints. *)
Definition diagnostic (k : failure_kind) (msg body : string) : list string :=
  match k with
  | HttpRequestFailed => ["❌ HTTP Request failed: " ++ msg]
  | ParseFailed =>
      ["❌ Failed to parse response JSON: " ++ msg;
       "   Server Response: " ++ take_chars 200 body ++ "..."]
  end.

(** The number of characters of a string held in UTF-8. *)
Fixpoint char_count (s : string) : nat :=
  match s with
  | EmptyString => O
  | String c s' => if is_continuation c then char_count s' else S (char_count s')
  end.

(** [needle in line]. *)
Definition contains (needle line : string) : bool :=
  match index 0 needle line with
  | Some _ => true
  | None => false
  end.

Definition places_call : GetCall :=
  the_get_call default_service places_layer "1=1" fetched_fields.

Definition countysubs_call : GetCall :=
  the_get_call default_service countysubs_layer countysubs_where fetched_fields.

(** ** Vocabulary of the further properties *)

(** The exception a fetch lets out of [get_tiger_polygons]: one that
    neither [except] clause names, or the [UnboundLocalError] of the second
    clause when [requests.get] itself raised and [response] is unbound. *)
Definition uncaught (r : exn + Response) : option exn :=
  match r with
  | inl e =>
      if is_RequestException e then None
      else if is_KeyError_or_ValueError e
           then Some (mkExn UnboundLocalError "response")
           else Some e
  | inr resp =>
      if ((400 <=? status_code resp) && (status_code resp <? 600))%Z then None
      else match json_result resp with
           | inl e =>
               if is_RequestException e then None
               else if is_KeyError_or_ValueError e then None else Some e
           | inr (JObject members) =>
               match members_get members "features" with
               | Some (JOtherValue type_error) => Some (mkExn TypeError type_error)
               | _ => None
               end
           | inr (JNotObject type_error) => Some (mkExn TypeError type_error)
           end
  end.

(** The entry a fetch leaves in an empty mapping. *)
Definition stored_entry (layer_id : Z) (r : exn + Response) : list (Z * Table) :=
  match fetched_rows r with
  | Some rows => [(layer_id, rows)]
  | None => []
  end.

(** The mapping after the two fetches, in the order the workers wrote. *)
Definition fetched_geo_data (net : Network) (s : schedule) : list (Z * Table) :=
  match s with
  | PlacesFirst =>
      (stored_entry places_layer (net places_call)
       ++ stored_entry countysubs_layer (net countysubs_call))%list
  | CountysubsFirst =>
      (stored_entry countysubs_layer (net countysubs_call)
       ++ stored_entry places_layer (net places_call))%list
  end.

(** What one fetch does to the mapping [d]. *)
Definition store_into (layer_id : Z) (r : exn + Response) (d : list (Z * Table))
  : list (Z * Table) :=
  match fetched_rows r with
  | Some rows => dict_set d layer_id rows
  | None => d
  end.

(** The line of the handler at the pool, lines 69-70. *)
Definition master_line (exc : exn) : string :=
  "❌ A master fetching task failed: " ++ exn_msg exc.

(** The income row is missing or is not the sentinel. *)
Definition sentinel_free (r : IncomeRow) : Prop := B19013_001E r <> Some sentinel.

(** ** Example inputs *)

Definition boulder : Feature := mkFeature "08" "Boulder" 68 (40 # 1) (-105 # 1).
Definition ward : Feature := mkFeature "08" "Ward" 1 (401 # 10) (-1055 # 10).
Definition lyons : Feature := mkFeature "08" "Lyons" 3 (402 # 10) (-1053 # 10).
Definition washington : Feature := mkFeature "11" "Washington" 158 (389 # 10) (-77 # 1).

Definition colorado_table : Table := [boulder; ward; lyons].
Definition one_place_table : Table := [washington].

(** Three places of one state, two of them of the same area: the
    binning ends with ten buckets. *)
Definition ri_table : Table :=
  [ mkFeature "44" "Ashaway" 5 (414 # 10) (-718 # 10);
    mkFeature "44" "Bradford" 5 (414 # 10) (-717 # 10);
    mkFeature "44" "Cranston" 9 (418 # 10) (-714 # 10) ].

(** Two places of one state whose areas, [2^53] and [2^53 + 1], are the
    same [float64]. *)
Definition vast : Feature :=
  mkFeature "02" "Vast" 9007199254740992 (64 # 1) (-150 # 1).
Definition vaster : Feature :=
  mkFeature "02" "Vaster" 9007199254740993 (65 # 1) (-151 # 1).
Definition vast_table : Table := [vast; vaster].

Definition ward_row : Row := mkRow ward (Some 1).
Definition boulder_row : Row := mkRow boulder (Some 20).
Definition washington_row : Row := mkRow washington None.
Definition vast_row : Row := mkRow vast None.
Definition vaster_row : Row := mkRow vaster None.

(** A body is written here with ['] where the JSON text has its double
    quote. *)
Fixpoint json_text (s : string) : string :=
  match s with
  | EmptyString => EmptyString
  | String c s' =>
      String (if Ascii.eqb c "'" then ascii_of_nat 34 else c) (json_text s')
  end.

(** A server that answers every request with status 503 and an HTML
    body. *)
Definition response_503 : Response :=
  mkResponse 503 "503 Server Error: Service Unavailable for url"
             "<html>Service Unavailable</html>"
             (inl (mkExn RequestsJSONDecodeError
                         "Expecting value: line 1 column 1 (char 0)")).

Definition net_503 : Network := fun _ => inr response_503.

(** A server that answers with a JSON error object, as ArcGIS does for a
    query it rejects. *)
Definition error_body : string :=
  json_text "{'error': {'code': 400, 'message': 'Invalid query'}}".

Definition response_no_features : Response :=
  mkResponse 200 "" error_body
             (inr (JObject [("error"%string,
                             JOtherValue "string indices must be integers, not 'str'")])).

Definition net_no_features : Network := fun _ => inr response_no_features.

(** The places layer answers with two features; the request for the
    county subdivisions does not get through. *)
Definition places_body : string :=
  json_text
    ("{'type': 'FeatureCollection', 'features': ["
     ++ "{'type': 'Feature', 'geometry': null, 'properties': {'STATE': '08', "
     ++ "'NAME': 'Boulder', 'AREALAND': 68, 'CENTLAT': 40.0, 'CENTLON': -105.0}}, "
     ++ "{'type': 'Feature', 'geometry': null, 'properties': {'STATE': '08', "
     ++ "'NAME': 'Ward', 'AREALAND': 1, 'CENTLAT': 40.1, 'CENTLON': -105.5}}]}").

Definition response_places : Response :=
  mkResponse 200 "" places_body
             (inr (JObject [("type"%string,
                             JOtherValue "string indices must be integers, not 'str'");
                            ("features"%string, JFeatures [boulder; ward])])).

Definition net_places_only : Network :=
  fun call =>
    if String.eqb (call_url call) (API_URL default_service places_layer)
    then inr response_places
    else inl (mkExn ConnectionError "Connection refused").

Definition income_table : list IncomeRow :=
  [ mkIncomeRow [("GEOID"%string, "080130121011"%string)] (Some 98750);
    mkIncomeRow [("GEOID"%string, "080130122032"%string)] (Some (-666666666));
    mkIncomeRow [("GEOID"%string, "080690001001"%string)] None ].

(** The axes extent of the examples, around Boulder county. *)
Definition front_range : Extent := mkExtent (-106 # 1) (-104 # 1) (39 # 1) (41 # 1).

Definition inputs_503 : Inputs :=
  mkInputs net_503 PlacesFirst income_table (fun _ => mkExtent 0 0 0 0).

Definition inputs_places_only : Inputs :=
  mkInputs net_places_only CountysubsFirst income_table (fun _ => front_range).

(** A row at decile 20 and a row at decile 18 inside the extent, and a row
    at decile 20 outside of it. *)
Definition lyons_row_18 : Row := mkRow lyons (Some 18).
Definition washington_row_20 : Row := mkRow washington (Some 20).
Definition stacked_example : list Row := [boulder_row; lyons_row_18; washington_row_20].

(** The body is a JSON array: indexing it with ["features"] is a
    [TypeError], which no clause of the fetcher catches. *)
Definition response_array : Response :=
  mkResponse 200 "" "[]"
             (inr (JNotObject "list indices must be integers or slices, not str")).

Definition net_array : Network := fun _ => inr response_array.

(** The answer has its features, and one of them lacks its
    ["properties"]. *)
Definition incomplete_body : string :=
  json_text "{'type': 'FeatureCollection', 'features': [{'type': 'Feature', 'geometry': null}]}".

Definition response_incomplete : Response :=
  mkResponse 200 "" incomplete_body
             (inr (JObject [("type"%string,
                             JOtherValue "string indices must be integers, not 'str'");
                            ("features"%string, JIncompleteFeatures "properties")])).

Definition net_incomplete : Network := fun _ => inr response_incomplete.

(** Both layers answer. *)
Definition countysubs_body : string :=
  json_text
    ("{'type': 'FeatureCollection', 'features': ["
     ++ "{'type': 'Feature', 'geometry': null, 'properties': {'STATE': '08', "
     ++ "'NAME': 'Lyons', 'AREALAND': 3, 'CENTLAT': 40.2, 'CENTLON': -105.3}}, "
     ++ "{'type': 'Feature', 'geometry': null, 'properties': {'STATE': '11', "
     ++ "'NAME': 'Washington', 'AREALAND': 158, 'CENTLAT': 38.9, 'CENTLON': -77.0}}]}").

Definition response_countysubs : Response :=
  mkResponse 200 "" countysubs_body
             (inr (JObject [("type"%string,
                             JOtherValue "string indices must be integers, not 'str'");
                            ("features"%string, JFeatures [lyons; washington])])).

Definition net_both : Network :=
  fun call =>
    if String.eqb (call_url call) (API_URL default_service places_layer)
    then inr response_places
    else inr response_countysubs.

(** [requests.get] raises a plain [ValueError]. *)
Definition net_value_error : Network :=
  fun _ => inl (mkExn ValueError "check_hostname requires server_hostname").

Definition inputs_both (s : schedule) : Inputs :=
  mkInputs net_both s income_table (fun _ => front_range).

(** The two rows of [ri_table] with the same area. *)
Definition ashaway_row : Row :=
  mkRow (mkFeature "44" "Ashaway" 5 (414 # 10) (-718 # 10)) (Some 1).
Definition bradford_row : Row :=
  mkRow (mkFeature "44" "Bradford" 5 (414 # 10) (-717 # 10)) (Some 1).

(** The run on [net_both] with the places written first. *)
Definition outcome_both_places_first : Outcome :=
  Eval vm_compute in
    match fst (run_script (inputs_both PlacesFirst)) with
    | inr o => o
    | inl _ => mkOutcome [] [] (mkFigure [] [])
    end.

Definition world_both_places_first : World :=
  Eval vm_compute in snd (run_script (inputs_both PlacesFirst)).

Local Close Scope py_scope.
Local Close Scope string_scope.

(** * Properties *)

(** ** Rounding to [float64] *)

Module Float64Facts.
Import Float64.

(** The rounded integer is within a half of [n / d], and is even when it
    is exactly a half away. *)
Lemma round_half_even_spec n d :
  0 < d ->
  - d <= 2 * (n - round_half_even n d * d) <= d
  /\ (2 * (n - round_half_even n d * d) = d \/ 2 * (n - round_half_even n d * d) = - d
      -> Z.even (round_half_even n d) = true).
Proof.
  intros Hd. unfold round_half_even.
  pose proof (Z.div_mod n d ltac:(lia)) as E.
  pose proof (Z.mod_pos_bound n d Hd) as B.
  destruct (Z.ltb_spec (2 * (n mod d)) d) as [H1|H1]; [split; [nia|intros [H|H]; exfalso; nia]|].
  destruct (Z.ltb_spec d (2 * (n mod d))) as [H2|H2]; [split; [nia|intros [H|H]; exfalso; nia]|].
  destruct (Z.even (n / d)) eqn:Ev.
  - split; [nia|]. intros _. exact Ev.
  - split; [nia|]. intros _. rewrite Z.add_1_r, Z.even_succ, <- Z.negb_even, Ev. reflexivity.
Qed.

(** Rounding to the nearest integer keeps the order of the fractions. *)
Lemma round_half_even_mono n d n' d' :
  0 < d -> 0 < d' -> n * d' <= n' * d -> round_half_even n d <= round_half_even n' d'.
Proof.
  intros Hd Hd' H.
  destruct (round_half_even_spec n d Hd) as [B T].
  destruct (round_half_even_spec n' d' Hd') as [B' T'].
  set (m := round_half_even n d) in *. set (m' := round_half_even n' d') in *.
  destruct (Z_le_gt_dec m m') as [|Hgt]; [assumption|exfalso].
  assert (L1 : (2 * m - 1) * d <= 2 * n) by lia.
  assert (L2 : 2 * n' <= (2 * m' + 1) * d') by lia.
  assert (L3 : (2 * m - 1) * d * d' <= 2 * n * d') by nia.
  assert (L4 : 2 * n' * d <= (2 * m' + 1) * d' * d) by nia.
  assert (L5 : (2 * m - 1) * (d * d') <= (2 * m' + 1) * (d * d')) by nia.
  assert (Hdd : 0 < d * d') by nia.
  assert (L6 : 2 * m - 1 <= 2 * m' + 1) by nia.
  assert (Em : m = m' + 1) by lia.
  assert (E1 : 2 * (n - m * d) = - d) by nia.
  assert (E2 : 2 * (n' - m' * d') = d') by nia.
  specialize (T (or_intror E1)). specialize (T' (or_introl E2)).
  rewrite Em, Z.add_1_r, Z.even_succ, <- Z.negb_even, T' in T. discriminate.
Qed.

Lemma nearest_mono y y' : (y <= y')%Q -> nearest y <= nearest y'.
Proof.
  intros H. unfold nearest. apply round_half_even_mono; try reflexivity. exact H.
Qed.

Lemma nearest_exact y m : (y == inject_Z m)%Q -> nearest y = m.
Proof.
  unfold Qeq, nearest, round_half_even. simpl. intros H.
  rewrite Z.mul_1_r in H. rewrite H.
  rewrite Z.div_mul, Z.mod_mul by lia. simpl. reflexivity.
Qed.


Local Open Scope Q_scope.

Lemma two_neq_0 : ~ 2 == 0.
Proof. discriminate. Qed.

Lemma pow2_pos e : 0 < 2 ^ e.
Proof. apply Qpower_0_lt. reflexivity. Qed.

Lemma pow2_add e e' : 2 ^ (e + e') == 2 ^ e * 2 ^ e'.
Proof. apply Qpower_plus, two_neq_0. Qed.

Lemma pow2_succ e : 2 ^ (e + 1) == 2 * 2 ^ e.
Proof. rewrite pow2_add. change (2 ^ 1) with 2. ring. Qed.

Lemma pow2_le e e' : (e <= e')%Z -> 2 ^ e <= 2 ^ e'.
Proof. intros H. apply Qpower_le_compat_l; [assumption|discriminate]. Qed.

Lemma pow2_lt_inv e e' : 2 ^ e < 2 ^ e' -> (e < e')%Z.
Proof. intros H. apply (Qpower_lt_compat_l_inv 2); [assumption|reflexivity]. Qed.

Lemma pow2_le_inv e e' : 2 ^ e <= 2 ^ e' -> (e <= e')%Z.
Proof. intros H. apply (Qpower_le_compat_l_inv 2); [assumption|reflexivity]. Qed.

Lemma pow2_inject k : (0 <= k)%Z -> inject_Z (2 ^ k) == 2 ^ k.
Proof. intros H. now rewrite Zpower_Qpower. Qed.

Lemma pow2_split e e' : 2 ^ (e - e') * 2 ^ e' == 2 ^ e.
Proof. rewrite <- pow2_add. now replace (e - e' + e')%Z with e by lia. Qed.

(** The exponent of a positive number: [2^e <= a < 2^(e+1)]. *)
Lemma exponent_spec a : 0 < a -> 2 ^ exponent a <= a /\ a < 2 ^ (exponent a + 1).
Proof.
  intros Ha. destruct a as [n d].
  assert (Hn : (0 < n)%Z) by (unfold Qlt in Ha; simpl in Ha; lia).
  unfold exponent. cbn [Qnum Qden].
  pose proof (Z.log2_spec n Hn) as [N1 N2].
  pose proof (Z.log2_spec (Zpos d) eq_refl) as [D1 D2].
  pose proof (Z.log2_nonneg n) as Hln. pose proof (Z.log2_nonneg (Zpos d)) as Hld.
  set (ln := Z.log2 n) in *. set (ld := Z.log2 (Zpos d)) in *.
  assert (QN1 : 2 ^ ln <= inject_Z n).
  { rewrite <- pow2_inject by assumption. now rewrite <- Zle_Qle. }
  assert (QN2 : inject_Z n < 2 * 2 ^ ln).
  { rewrite <- pow2_succ, <- pow2_inject by lia. rewrite <- Zlt_Qlt. lia. }
  assert (QD1 : 2 ^ ld <= inject_Z (Zpos d)).
  { rewrite <- pow2_inject by assumption. now rewrite <- Zle_Qle. }
  assert (QD2 : inject_Z (Zpos d) < 2 * 2 ^ ld).
  { rewrite <- pow2_succ, <- pow2_inject by lia. rewrite <- Zlt_Qlt. lia. }
  pose proof (pow2_split ln ld) as Ec.
  pose proof (pow2_pos ld) as HB. pose proof (pow2_pos (ln - ld)) as Hc.
  assert (Ea : (n # d) * inject_Z (Zpos d) == inject_Z n).
  { rewrite (Qmake_Qdiv n d). field. intros E. revert E. discriminate. }
  remember (n # d) as a eqn:Ea'. clear Ea'.
  remember (inject_Z n) as N. remember (inject_Z (Zpos d)) as D.
  remember (2 ^ ln) as A. remember (2 ^ ld) as B.
  assert (U : a < 2 * 2 ^ (ln - ld)).
  { remember (2 ^ (ln - ld)) as c. apply Qnot_le_lt. intros F.
    assert (2 * c * D <= a * D) by (apply Qmult_le_compat_r; [assumption|lra]).
    assert (c * B <= c * D) by (apply Qmult_le_l; [assumption|lra]).
    lra. }
  assert (L : 2 ^ (ln - ld) < 2 * a).
  { remember (2 ^ (ln - ld)) as c. apply Qnot_le_lt. intros F.
    assert (2 * a * D <= c * D) by (apply Qmult_le_compat_r; [assumption|lra]).
    assert (c * D < c * (2 * B)) by (apply Qmult_lt_l; [assumption|lra]).
    lra. }
  destruct (Qle_bool (2 ^ (ln - ld)) a) eqn:T.
  - apply Qle_bool_iff in T. split; [assumption|]. now rewrite pow2_succ.
  - assert (T' : a < 2 ^ (ln - ld)).
    { apply Qnot_le_lt. intros F. apply Qle_bool_iff in F. congruence. }
    replace (ln - ld - 1 + 1)%Z with (ln - ld)%Z by lia. split; [|assumption].
    pose proof (pow2_succ (ln - ld - 1)) as S.
    replace (ln - ld - 1 + 1)%Z with (ln - ld)%Z in S by lia. lra.
Qed.

(** The scaled number lies between [2^52] and [2^53], and so does the
    significand. *)
Lemma scaled_bounds a :
  0 < a ->
  2 ^ 52 <= a * 2 ^ (52 - exponent a) /\ a * 2 ^ (52 - exponent a) < 2 ^ 53.
Proof.
  intros Ha. destruct (exponent_spec a Ha) as [L U].
  pose proof (pow2_pos (52 - exponent a)) as Hp.
  pose proof (pow2_split 52 (exponent a)) as E.
  pose proof (pow2_succ (exponent a)) as S. rewrite S in U.
  assert (E53 : 2 * 2 ^ 52 == 2 ^ 53) by reflexivity.
  remember (2 ^ (52 - exponent a)) as p. remember (2 ^ exponent a) as c.
  split.
  - rewrite <- E. rewrite (Qmult_comm p c). apply Qmult_le_compat_r; lra.
  - rewrite <- E53, <- E.
    assert (a * p < 2 * c * p) by (apply Qmult_lt_compat_r; lra). lra.
Qed.

Lemma significand_bounds a :
  0 < a -> (2 ^ 52 <= nearest (a * 2 ^ (52 - exponent a)) <= 2 ^ 53)%Z.
Proof.
  intros Ha. destruct (scaled_bounds a Ha) as [L U].
  pose proof (nearest_mono _ _ L) as H1.
  pose proof (nearest_mono _ _ (Qlt_le_weak _ _ U)) as H2.
  rewrite (nearest_exact (2 ^ 52) (2 ^ 52)%Z) in H1
    by (symmetry; apply pow2_inject; lia).
  rewrite (nearest_exact (2 ^ 53) (2 ^ 53)%Z) in H2
    by (symmetry; apply pow2_inject; lia).
  split; assumption.
Qed.

Lemma round_pos_eq a :
  round_pos a == inject_Z (nearest (a * 2 ^ (52 - exponent a))) * 2 ^ (exponent a - 52).
Proof. unfold round_pos. apply Qred_correct. Qed.

Lemma round_pos_bounds a :
  0 < a -> 2 ^ exponent a <= round_pos a /\ round_pos a <= 2 ^ (exponent a + 1).
Proof.
  intros Ha. rewrite round_pos_eq.
  destruct (significand_bounds a Ha) as [L U].
  rewrite Zle_Qle in L, U. rewrite pow2_inject in L, U by lia.
  pose proof (pow2_pos (exponent a - 52)) as Hp.
  pose proof (pow2_split (exponent a) 52) as E. rewrite Qmult_comm in E.
  pose proof (pow2_succ (exponent a)) as S.
  assert (E53 : 2 * 2 ^ 52 == 2 ^ 53) by reflexivity.
  remember (inject_Z (nearest (a * 2 ^ (52 - exponent a)))) as m.
  remember (2 ^ (exponent a - 52)) as p.
  split.
  - rewrite <- E. apply Qmult_le_compat_r; lra.
  - rewrite S, <- E.
    assert (m * p <= 2 ^ 53 * p) by (apply Qmult_le_compat_r; lra). lra.
Qed.

(** Rounding keeps the order. *)
Lemma round_pos_mono a b : 0 < a -> a <= b -> round_pos a <= round_pos b.
Proof.
  intros Ha Hab. assert (Hb : 0 < b) by lra.
  destruct (exponent_spec a Ha) as [La Ua]. destruct (exponent_spec b Hb) as [Lb Ub].
  assert (He : (exponent a <= exponent b)%Z).
  { assert (2 ^ exponent a < 2 ^ (exponent b + 1)) by lra.
    apply pow2_lt_inv in H. lia. }
  destruct (Z.eq_dec (exponent a) (exponent b)) as [E|NE].
  - rewrite !round_pos_eq, E.
    apply Qmult_le_compat_r; [|apply Qlt_le_weak, pow2_pos].
    rewrite <- Zle_Qle. apply nearest_mono.
    apply Qmult_le_compat_r; [assumption|apply Qlt_le_weak, pow2_pos].
  - destruct (round_pos_bounds a Ha) as [_ U]. destruct (round_pos_bounds b Hb) as [L _].
    assert (2 ^ (exponent a + 1) <= 2 ^ exponent b) by (apply pow2_le; lia).
    lra.
Qed.

(** A number with a significand of at most 53 bits is left as it is. *)
Lemma round_pos_exact a m k :
  (0 < m <= 2 ^ 53)%Z -> a == inject_Z m * 2 ^ k -> round_pos a == a.
Proof.
  intros Hm Ea.
  assert (Hm' : 0 < inject_Z m) by (change 0 with (inject_Z 0); rewrite <- Zlt_Qlt; lia).
  assert (Hm53 : inject_Z m <= 2 ^ 53).
  { rewrite <- pow2_inject by lia. rewrite <- Zle_Qle. lia. }
  pose proof (pow2_pos k) as Hk.
  assert (Ha : 0 < a) by (rewrite Ea; now apply Qmult_lt_0_compat).
  destruct (exponent_spec a Ha) as [L U].
  set (e := exponent a) in *.
  assert (He : (e <= 53 + k)%Z).
  { apply pow2_le_inv. rewrite pow2_add.
    assert (inject_Z m * 2 ^ k <= 2 ^ 53 * 2 ^ k) by (apply Qmult_le_compat_r; lra).
    lra. }
  rewrite round_pos_eq. fold e.
  assert (Ey : a * 2 ^ (52 - e) == inject_Z m * 2 ^ (k + 52 - e)).
  { rewrite Ea. replace (k + 52 - e)%Z with (k + (52 - e))%Z by lia.
    rewrite pow2_add. ring. }
  destruct (Z.eq_dec e (53 + k)) as [Etop|Hlt].
  - assert (Em : m = (2 ^ 53)%Z).
    { assert (2 ^ 53 * 2 ^ k <= inject_Z m * 2 ^ k).
      { rewrite <- pow2_add, <- Etop, <- Ea. exact L. }
      apply Qmult_lt_0_le_reg_r in H; [|assumption].
      rewrite <- pow2_inject in H by lia. rewrite <- Zle_Qle in H. lia. }
    rewrite (nearest_exact _ (2 ^ 52)%Z).
    + rewrite Ea, Em, Etop. rewrite !pow2_inject by lia.
      replace (53 + k - 52)%Z with (1 + k)%Z by lia. rewrite pow2_add.
      change (2 ^ 1) with 2. change (2 ^ 53) with (2 * 2 ^ 52). ring.
    + rewrite Ey, Em, Etop. replace (k + 52 - (53 + k))%Z with (-1)%Z by lia.
      reflexivity.
  - assert (Hj : (0 <= k + 52 - e)%Z) by lia.
    rewrite (nearest_exact _ (m * 2 ^ (k + 52 - e))%Z).
    + rewrite inject_Z_mult, pow2_inject by assumption. rewrite Ea.
      rewrite <- Qmult_assoc, <- pow2_add.
      now replace (k + 52 - e + (e - 52))%Z with k by lia.
    + rewrite Ey, inject_Z_mult, pow2_inject by assumption. reflexivity.
Qed.

Lemma round64_zero x : x == 0 -> round64 x = 0.
Proof.
  intros E. unfold round64. unfold Qeq in E. simpl in E.
  rewrite Z.mul_1_r in E. now rewrite E.
Qed.

Lemma round64_pos x : 0 < x -> round64 x = round_pos x.
Proof.
  intros H. unfold round64. unfold Qlt in H. simpl in H. rewrite Z.mul_1_r in H.
  destruct (Z.eqb_spec (Qnum x) 0); [lia|].
  destruct (Z.ltb_spec (Qnum x) 0); [lia|reflexivity].
Qed.

Lemma round64_nonneg x : 0 <= x -> 0 <= round64 x.
Proof.
  intros H. destruct (Qeq_dec x 0) as [E|NE].
  - rewrite (round64_zero x E). apply Qle_refl.
  - assert (Hx : 0 < x) by (apply Qle_lteq in H; destruct H as [H|H]; [assumption|symmetry in H; contradiction]).
    rewrite (round64_pos x Hx). destruct (round_pos_bounds x Hx) as [L _].
    pose proof (pow2_pos (exponent x)). lra.
Qed.

Lemma round64_mono x y : 0 <= x -> x <= y -> round64 x <= round64 y.
Proof.
  intros Hx Hxy. destruct (Qeq_dec x 0) as [E|NE].
  - rewrite (round64_zero x E). apply round64_nonneg. lra.
  - assert (Hx' : 0 < x) by (apply Qle_lteq in Hx; destruct Hx as [H|H]; [assumption|symmetry in H; contradiction]).
    rewrite (round64_pos x Hx'), (round64_pos y) by lra.
    now apply round_pos_mono.
Qed.

Lemma round64_eq x y : 0 <= x -> x == y -> round64 x == round64 y.
Proof.
  intros Hx E. apply Qle_antisym; apply round64_mono; lra.
Qed.

Lemma round64_exact x m k :
  (0 <= m <= 2 ^ 53)%Z -> x == inject_Z m * 2 ^ k -> round64 x == x.
Proof.
  intros Hm E. destruct (Z.eq_dec m 0) as [->|NE].
  - assert (E0 : x == 0) by (rewrite E; ring). rewrite (round64_zero x E0). now rewrite E0.
  - assert (Hx : 0 < x).
    { rewrite E. apply Qmult_lt_0_compat; [|apply pow2_pos].
      change 0 with (inject_Z 0). rewrite <- Zlt_Qlt. lia. }
    rewrite (round64_pos x Hx). apply (round_pos_exact x m k); [lia|assumption].
Qed.

(** What [round64] returns is a float. *)
Lemma round64_float x :
  0 <= x -> exists m k, (0 <= m <= 2 ^ 53)%Z /\ round64 x == inject_Z m * 2 ^ k.
Proof.
  intros H. destruct (Qeq_dec x 0) as [E|NE].
  - exists 0%Z, 0%Z. split; [lia|]. rewrite (round64_zero x E). reflexivity.
  - assert (Hx : 0 < x) by (apply Qle_lteq in H; destruct H as [H|H]; [assumption|symmetry in H; contradiction]).
    rewrite (round64_pos x Hx).
    exists (nearest (x * 2 ^ (52 - exponent x))), (exponent x - 52)%Z.
    split; [|apply round_pos_eq].
    pose proof (significand_bounds x Hx). lia.
Qed.

(** Rounding a float changes nothing. *)
Lemma round64_idem x : 0 <= x -> round64 (round64 x) == round64 x.
Proof.
  intros H. destruct (round64_float x H) as (m & k & Hm & E).
  now apply (round64_exact _ m k).
Qed.

(** The integers up to [2^53] and their halves are floats. *)
Lemma of_int_exact z : (0 <= z <= 2 ^ 53)%Z -> of_int z == inject_Z z.
Proof.
  intros H. unfold of_int. apply (round64_exact _ z 0); [assumption|].
  change (2 ^ 0) with 1. ring.
Qed.


End Float64Facts.

(** ** [round64] on the numbers the binning meets *)

Module RoundFacts.
Import Float64 Float64Facts.
Local Open Scope Q_scope.

Lemma round_pos_proper a b : 0 < a -> a == b -> round_pos a == round_pos b.
Proof.
  intros Ha E. apply Qle_antisym; apply round_pos_mono; lra.
Qed.

#[export] Instance round64_Proper : Proper (Qeq ==> Qeq) round64.
Proof.
  intros x y E. destruct (Q_dec x 0) as [[Hneg|Hpos]|Hz].
  - assert (Hy : y < 0) by lra.
    unfold round64.
    assert (Nx : (Qnum x < 0)%Z) by (unfold Qlt in Hneg; simpl in Hneg; lia).
    assert (Ny : (Qnum y < 0)%Z) by (unfold Qlt in Hy; simpl in Hy; lia).
    destruct (Z.eqb_spec (Qnum x) 0); [lia|]. destruct (Z.eqb_spec (Qnum y) 0); [lia|].
    destruct (Z.ltb_spec (Qnum x) 0); [|lia]. destruct (Z.ltb_spec (Qnum y) 0); [|lia].
    apply Qopp_comp. apply round_pos_proper; lra.
  - apply round64_eq; lra.
  - rewrite (round64_zero x Hz), (round64_zero y); [reflexivity|lra].
Qed.



Lemma round64_int z : (0 <= z <= 2 ^ 53)%Z -> round64 (inject_Z z) == inject_Z z.
Proof. apply of_int_exact. Qed.

Lemma round64_le_int x z :
  (0 <= z <= 2 ^ 53)%Z -> 0 <= x -> x <= inject_Z z -> round64 x <= inject_Z z.
Proof.
  intros Hz Hx H. rewrite <- (round64_int z Hz). now apply round64_mono.
Qed.


Lemma inject_Z_nonneg z : (0 <= z)%Z -> 0 <= inject_Z z.
Proof. intros H. change 0 with (inject_Z 0). now rewrite <- Zle_Qle. Qed.

End RoundFacts.

(** ** The interpolation between two values that [float64] holds exactly *)

Module LerpFacts.
Import Float64 Float64Facts RoundFacts Qcut.
Local Open Scope Q_scope.

Lemma int64_small z : (- 2 ^ 63 <= z < 2 ^ 63)%Z -> int64 z = z.
Proof.
  intros H. unfold int64.
  change (2 ^ 64)%Z with (2 * 2 ^ 63)%Z. rewrite Z.mod_small; lia.
Qed.

Lemma pow_53_63 : (2 ^ 53 < 2 ^ 63)%Z.
Proof. reflexivity. Qed.

Section TwoValues.
Variables a b : Z.
Hypothesis Hab : (0 <= a <= b)%Z.
Hypothesis Hb : (b < 2 ^ 53)%Z.

Let A := inject_Z a.
Let B := inject_Z b.
Let D := inject_Z (b - a).

Lemma diff_exact : of_int (int64 (b - a)) == D.
Proof.
  pose proof pow_53_63. rewrite int64_small by lia. apply of_int_exact. lia.
Qed.




Lemma lerp_below t :
  Qle_bool (1 # 2) t = false ->
  lerp a b t == round64 (A + round64 (D * t)).
Proof.
  intros E. unfold lerp. rewrite E. unfold add, mul.
  rewrite diff_exact, (of_int_exact a) by lia. reflexivity.
Qed.








End TwoValues.

(** Between a value and itself nothing is interpolated. *)
Lemma lerp_same a t : (0 <= a < 2 ^ 53)%Z -> lerp a a t == inject_Z a.
Proof.
  intros Ha. unfold lerp. rewrite Z.sub_diag.
  change (of_int (int64 0)) with 0.
  unfold sub, add, mul.
  destruct (Qle_bool (1 # 2) t).
  - rewrite (round64_zero (0 * _)) by ring.
    rewrite (of_int_exact a) by lia.
    setoid_replace (inject_Z a - 0) with (inject_Z a) by ring.
    apply round64_int. lia.
  - rewrite (round64_zero (0 * _)) by ring.
    rewrite (of_int_exact a) by lia.
    setoid_replace (inject_Z a + 0) with (inject_Z a) by ring.
    apply round64_int. lia.
Qed.

End LerpFacts.

(** ** Sorting *)

Module SortFacts.
Import Qcut.

Lemma insert_sorted_In x l z : In z (insert_sorted x l) <-> z = x \/ In z l.
Proof.
  induction l as [|y l IH]; simpl.
  - intuition.
  - destruct (x <=? y); simpl; rewrite ?IH; intuition.
Qed.

Lemma insert_sorted_length x l : length (insert_sorted x l) = S (length l).
Proof.
  induction l as [|y l IH]; simpl; [reflexivity|].
  destruct (x <=? y); simpl; congruence.
Qed.

Lemma sort_In l z : In z (sort l) <-> In z l.
Proof.
  induction l as [|x l IH]; simpl; [tauto|].
  rewrite insert_sorted_In, IH. intuition.
Qed.

Lemma sort_length l : length (sort l) = length l.
Proof.
  induction l as [|x l IH]; simpl; [reflexivity|].
  now rewrite insert_sorted_length, IH.
Qed.

Lemma insert_sorted_ascending x l : ascending l -> ascending (insert_sorted x l).
Proof.
  induction l as [|y l IH]; simpl; intros H.
  - split; [intros ? []|exact I].
  - destruct H as [Hy Hl]. destruct (Z.leb_spec x y) as [Hxy|Hxy]; simpl.
    + repeat split; auto. intros z [<-|Hz]; [exact Hxy|]. specialize (Hy z Hz). lia.
    + split; [|now apply IH].
      intros z Hz. apply insert_sorted_In in Hz. destruct Hz as [->|Hz]; [lia|auto].
Qed.

Lemma sort_ascending l : ascending (sort l).
Proof.
  induction l as [|x l IH]; simpl; [exact I|]. now apply insert_sorted_ascending.
Qed.

Lemma ascending_nth l i j :
  ascending l -> (i <= j < length l)%nat -> nth i l 0 <= nth j l 0.
Proof.
  revert i j. induction l as [|x l IH]; simpl; intros i j H Hij; [lia|].
  destruct H as [Hx Hl]. destruct i as [|i], j as [|j]; try lia.
  - apply Hx, nth_In. lia.
  - apply IH; [assumption|lia].
Qed.

Lemma ascending_first l z : ascending l -> In z l -> nth 0 l 0 <= z.
Proof.
  destruct l as [|x l]; simpl; [tauto|].
  intros [Hx _] [<-|Hz]; [lia|auto].
Qed.

Lemma ascending_last l z : ascending l -> In z l -> z <= nth (length l - 1) l 0.
Proof.
  intros Hl Hz. destruct (In_nth l z 0 Hz) as (i & Hi & <-).
  apply ascending_nth; [assumption|lia].
Qed.

End SortFacts.

(** ** The quantile of sorted data that [float64] holds exactly *)

Module QuantileFacts.
Import Float64 Float64Facts RoundFacts LerpFacts Qcut SortFacts.
Local Open Scope Q_scope.

Section SortedData.
Variable arr : list Z.
Hypothesis Hasc : ascending arr.
Hypothesis Hex : forall z, In z arr -> (0 <= z < 2 ^ 53)%Z.
Hypothesis Hne : (0 < length arr)%nat.
Hypothesis Hlen : (Z.of_nat (length arr) <= 2 ^ 53)%Z.

Let n1 : Z := (Z.of_nat (length arr) - 1)%Z.
Let first : Z := nth 0 arr 0%Z.
Let last : Z := nth (length arr - 1) arr 0%Z.
Let V (ql : Q) : Q := mul (of_int n1) ql.
Let P (ql : Q) : Z := Qfloor (V ql).
Let G (ql : Q) : Q := sub (V ql) (of_int (P ql)).

Lemma n1_exact : of_int n1 == inject_Z n1.
Proof. apply of_int_exact. unfold n1. lia. Qed.

Lemma nth_exact i : (i < length arr)%nat -> (0 <= nth i arr 0 < 2 ^ 53)%Z.
Proof. intros H. apply Hex, nth_In, H. Qed.

(** The virtual index stays within the indices and grows with the
    level. *)
Lemma V_bounds ql : 0 <= ql -> ql <= 1 -> 0 <= V ql /\ V ql <= inject_Z n1.
Proof.
  intros H0 H1. unfold V, mul. rewrite n1_exact.
  assert (Hn : 0 <= inject_Z n1) by (apply inject_Z_nonneg; unfold n1; lia).
  split.
  - apply round64_nonneg. now apply Qmult_le_0_compat.
  - apply round64_le_int; [unfold n1; lia|now apply Qmult_le_0_compat|].
    destruct (Qeq_dec (inject_Z n1) 0) as [E|NE]; [rewrite E; lra|].
    rewrite <- (Qmult_1_r (inject_Z n1)) at 2. apply Qmult_le_l; [lra|assumption].
Qed.


Lemma np_quantile_above ql :
  Qle_bool (of_int n1) (V ql) = true -> np_quantile arr ql == inject_Z last.
Proof.
  intros H. unfold np_quantile. cbv zeta. unfold V, n1 in H. rewrite H.
  apply lerp_same. apply nth_exact. lia.
Qed.

Lemma np_quantile_regular ql :
  Qle_bool (of_int n1) (V ql) = false ->
  np_quantile arr ql
  = lerp (nth (Z.to_nat (P ql)) arr 0%Z) (nth (Z.to_nat (P ql + 1)) arr 0%Z) (G ql).
Proof.
  intros H. unfold np_quantile. cbv zeta. unfold V, n1 in H. rewrite H. reflexivity.
Qed.

Lemma regular_index ql :
  0 <= ql -> ql <= 1 -> Qle_bool (of_int n1) (V ql) = false ->
  (0 <= P ql)%Z /\ (P ql + 1 <= n1)%Z.
Proof.
  intros H0 H1 H. destruct (V_bounds ql H0 H1) as [B0 B1].
  assert (Hlt : V ql < inject_Z n1).
  { apply Qnot_le_lt. intros F. rewrite <- n1_exact in F.
    apply Qle_bool_iff in F. congruence. }
  split.
  - unfold P. rewrite <- (Qfloor_Z 0). now apply Qfloor_resp_le.
  - pose proof (Qfloor_le (V ql)) as Hf. fold (P ql) in Hf.
    assert (inject_Z (P ql) < inject_Z n1) by lra.
    rewrite <- Zlt_Qlt in H2. lia.
Qed.


Lemma regular_values ql :
  0 <= ql -> ql <= 1 -> Qle_bool (of_int n1) (V ql) = false ->
  let p := Z.to_nat (P ql) in
  Z.to_nat (P ql + 1) = S p /\ (S p < length arr)%nat
  /\ (0 <= nth p arr 0 <= nth (S p) arr 0)%Z /\ (nth (S p) arr 0 < 2 ^ 53)%Z.
Proof.
  intros H0 H1 H p. destruct (regular_index ql H0 H1 H) as [I0 I1].
  assert (E : Z.to_nat (P ql + 1) = S p) by (unfold p; lia).
  assert (L : (S p < length arr)%nat) by (unfold p, n1 in *; lia).
  pose proof (nth_exact p ltac:(lia)). pose proof (nth_exact (S p) L).
  pose proof (ascending_nth arr p (S p) Hasc ltac:(lia)).
  repeat split; try assumption; lia.
Qed.



Lemma np_quantile_zero ql : ql == 0 -> np_quantile arr ql == inject_Z first.
Proof.
  intros E0.
  assert (EV : V ql = 0) by (unfold V, mul; apply round64_zero; rewrite E0; ring).
  destruct (Qle_bool (of_int n1) (V ql)) eqn:T.
  - rewrite (np_quantile_above ql T).
    rewrite EV in T. apply Qle_bool_iff in T. rewrite n1_exact in T.
    change 0 with (inject_Z 0) in T. rewrite <- Zle_Qle in T.
    unfold last, first. replace (length arr - 1)%nat with 0%nat by (unfold n1 in T; lia).
    reflexivity.
  - rewrite (np_quantile_regular ql T).
    assert (H0 : 0 <= ql) by lra. assert (H1 : ql <= 1) by lra.
    destruct (regular_values ql H0 H1 T) as (E & L & Hv & Hb). rewrite E.
    unfold G, P. rewrite EV. change (Qfloor 0) with 0%Z.
    change (sub 0 (of_int 0)) with 0. cbn [Z.to_nat].
    unfold P in Hv, Hb. rewrite EV in Hv, Hb. change (Z.to_nat (Qfloor 0)) with 0%nat in Hv, Hb.
    rewrite (lerp_below _ _ Hv Hb 0 eq_refl).
    rewrite (round64_zero (_ * 0)) by ring.
    setoid_replace (inject_Z (nth 0 arr 0%Z) + 0) with (inject_Z (nth 0 arr 0%Z)) by ring.
    apply round64_int. lia.
Qed.

Lemma np_quantile_one ql : ql == 1 -> np_quantile arr ql == inject_Z last.
Proof.
  intros E1. apply np_quantile_above. apply Qle_bool_iff.
  unfold V, mul. rewrite E1, Qmult_1_r. unfold of_int.
  rewrite round64_idem; [apply Qle_refl|]. apply inject_Z_nonneg. unfold n1. lia.
Qed.

End SortedData.

End QuantileFacts.

(** ** Bin edges and bin indices *)

Module QcutFacts.
Import Qcut SortFacts.
Local Open Scope Q_scope.

Lemma existsb_Qeq_In b seen :
  existsb (Qeq_bool b) seen = true <-> exists s, In s seen /\ b == s.
Proof.
  rewrite existsb_exists. split; intros (s & Hs & E); exists s; split; auto;
    now apply Qeq_bool_iff.
Qed.


Lemma unique_aux_covers seen l b :
  In b l ->
  (exists s, In s seen /\ b == s) \/ (exists b', In b' (unique_aux seen l) /\ b == b').
Proof.
  revert seen. induction l as [|a l IH]; intros seen; simpl; [tauto|].
  destruct (existsb (Qeq_bool a) seen) eqn:E.
  - intros [<-|H]; [left; now apply existsb_Qeq_In|now apply IH].
  - intros [<-|H].
    + right. exists a. split; [now left|reflexivity].
    + destruct (IH (a :: seen) H) as [(s & [<-|Hs] & Es)|(b' & Hb' & Eb')].
      * right. exists a. split; [now left|assumption].
      * left. eauto.
      * right. exists b'. split; [now right|assumption].
Qed.

Lemma unique_covers l b : In b l -> exists b', In b' (unique l) /\ b == b'.
Proof.
  intros H. destruct (unique_aux_covers [] l b H) as [(s & [] & _)|H']. exact H'.
Qed.


Lemma unique_aux_length seen l : (length (unique_aux seen l) <= length l)%nat.
Proof.
  revert seen. induction l as [|a l IH]; intros seen; simpl; [lia|].
  destruct (existsb (Qeq_bool a) seen); simpl.
  - specialize (IH seen). lia.
  - specialize (IH (a :: seen)). lia.
Qed.

Lemma unique_length l : (length (unique l) <= length l)%nat.
Proof. apply unique_aux_length. Qed.

Lemma unique_aux_same_length seen l :
  length (unique_aux seen l) = length l -> unique_aux seen l = l.
Proof.
  revert seen. induction l as [|a l IH]; intros seen; simpl; [reflexivity|].
  destruct (existsb (Qeq_bool a) seen); simpl; intros H.
  - pose proof (unique_aux_length seen l). lia.
  - f_equal. apply IH. lia.
Qed.

Lemma unique_head b l : exists tl, unique (b :: l) = b :: tl.
Proof. unfold unique. simpl. eauto. Qed.


Lemma drop_duplicates_unique l :
  length l <> 2%nat -> drop_duplicates l = unique l.
Proof.
  intros H. unfold drop_duplicates.
  destruct (Nat.ltb_spec (length (unique l)) (length l)) as [Hlt|Hge]; simpl.
  - apply Nat.eqb_neq in H. now rewrite H.
  - symmetry. pose proof (unique_length l). unfold unique in *.
    apply unique_aux_same_length. lia.
Qed.

Lemma drop_duplicates_length l : (length (drop_duplicates l) <= length l)%nat.
Proof.
  unfold drop_duplicates.
  destruct ((length (unique l) <? length l)%nat && negb (length l =? 2)%nat);
    [apply unique_length|lia].
Qed.

(** ** [searchsorted] *)

Lemma below_spec v b : negb (Qle_bool v b) = true <-> b < v.
Proof.
  rewrite negb_true_iff. split.
  - intros H. apply Qnot_le_lt. intros F. apply Qle_bool_iff in F. congruence.
  - intros H. destruct (Qle_bool v b) eqn:E; [|reflexivity].
    apply Qle_bool_iff in E. lra.
Qed.

Lemma below_false v b : negb (Qle_bool v b) = false <-> v <= b.
Proof. rewrite negb_false_iff. apply Qle_bool_iff. Qed.

Lemma searchsorted_left_le bins v : (searchsorted_left bins v <= length bins)%nat.
Proof.
  induction bins as [|b bins IH]; simpl; [lia|]. destruct (negb (Qle_bool v b)); lia.
Qed.

Lemma searchsorted_left_mono bins v v' :
  v <= v' -> (searchsorted_left bins v <= searchsorted_left bins v')%nat.
Proof.
  intros Hv. induction bins as [|b bins IH]; simpl; [lia|].
  destruct (negb (Qle_bool v b)) eqn:E; [|lia].
  apply below_spec in E. assert (E' : b < v') by lra. apply below_spec in E'.
  rewrite E'. lia.
Qed.

Lemma searchsorted_left_lt bins v b :
  In b bins -> v <= b -> (searchsorted_left bins v < length bins)%nat.
Proof.
  intros Hb Hv. induction bins as [|a bins IH]; simpl in *; [tauto|].
  destruct (negb (Qle_bool v a)) eqn:E; [|lia].
  apply below_spec in E.
  destruct Hb as [->|Hb]; [lra|]. specialize (IH Hb). lia.
Qed.


Lemma searchsorted_left_proper bins v v' :
  v == v' -> searchsorted_left bins v = searchsorted_left bins v'.
Proof.
  intros E. apply Nat.le_antisymm; apply searchsorted_left_mono; lra.
Qed.

(** ** [cut_one] *)

Lemma bin_id_le bins v : (bin_id bins v <= length bins)%nat.
Proof.
  destruct bins as [|b0 bins]; [simpl; lia|].
  unfold bin_id. destruct (Qeq_bool v b0); [simpl; lia|apply searchsorted_left_le].
Qed.

Lemma Qeq_bool_proper v v' b : v == v' -> Qeq_bool v b = Qeq_bool v' b.
Proof.
  intros E. destruct (Qeq_bool v b) eqn:E1, (Qeq_bool v' b) eqn:E2; try reflexivity.
  - apply Qeq_bool_iff in E1. assert (F : v' == b) by lra.
    apply Qeq_bool_iff in F. congruence.
  - apply Qeq_bool_iff in E2. assert (F : v == b) by lra.
    apply Qeq_bool_iff in F. congruence.
Qed.

Lemma cut_one_proper bins v v' : v == v' -> cut_one bins v = cut_one bins v'.
Proof.
  intros E. unfold cut_one, bin_id. destruct bins as [|b0 bins].
  - reflexivity.
  - rewrite (Qeq_bool_proper v v' b0 E), (searchsorted_left_proper _ v v' E).
    reflexivity.
Qed.

Lemma cut_one_Some bins v c :
  cut_one bins v = Some c ->
  c = (Z.of_nat (bin_id bins v) - 1)%Z /\ (1 <= bin_id bins v < length bins)%nat.
Proof.
  unfold cut_one. pose proof (bin_id_le bins v) as Hle.
  destruct (Nat.eqb_spec (bin_id bins v) (length bins)); simpl; [discriminate|].
  destruct (Nat.eqb_spec (bin_id bins v) 0); simpl; [discriminate|].
  intros [= <-]. split; [reflexivity|lia].
Qed.

Lemma cut_one_range bins v c :
  cut_one bins v = Some c -> (0 <= c <= Z.of_nat (length bins) - 2)%Z.
Proof. intros H. apply cut_one_Some in H. lia. Qed.

Lemma cut_one_defined b0 bins v b :
  bins <> [] -> b0 <= v -> In b (b0 :: bins) -> v <= b ->
  exists c, cut_one (b0 :: bins) v = Some c.
Proof.
  intros Hne Hlo Hb Hhi. unfold cut_one.
  assert (Hid : (1 <= bin_id (b0 :: bins) v < length (b0 :: bins))%nat).
  { unfold bin_id. destruct (Qeq_bool v b0) eqn:Ev.
    - destruct bins; [congruence|simpl; lia].
    - split; [|eapply searchsorted_left_lt; eauto].
      simpl. destruct (negb (Qle_bool v b0)) eqn:E; [lia|].
      apply below_false in E. exfalso.
      assert (F : v == b0) by lra. apply Qeq_bool_iff in F. congruence. }
  destruct (Nat.eqb_spec (bin_id (b0 :: bins) v) (length (b0 :: bins))); [lia|].
  destruct (Nat.eqb_spec (bin_id (b0 :: bins) v) 0); [lia|].
  simpl. eauto.
Qed.

Lemma cut_one_mono bins v v' c c' :
  v <= v' -> cut_one bins v = Some c -> cut_one bins v' = Some c' -> (c <= c')%Z.
Proof.
  intros Hv H H'. apply cut_one_Some in H, H'.
  destruct H as [-> [H1 H2]], H' as [-> [H1' H2']].
  enough (bin_id bins v <= bin_id bins v')%nat by lia.
  destruct bins as [|b0 bins]; [simpl in *; lia|].
  unfold bin_id in *.
  destruct (Qeq_bool v b0) eqn:E; [lia|].
  assert (Hlt : b0 < v).
  { simpl in H1. destruct (negb (Qle_bool v b0)) eqn:T; [now apply below_spec|lia]. }
  destruct (Qeq_bool v' b0) eqn:E'.
  - apply Qeq_bool_iff in E'. lra.
  - now apply searchsorted_left_mono.
Qed.

Lemma quantile_edges_length x q : length (quantile_edges x q) = (q + 1)%nat.
Proof. unfold quantile_edges. now rewrite length_map, length_seq. Qed.

Lemma bins_of_length x q : (length (bins_of x q) <= q + 1)%nat.
Proof.
  unfold bins_of. rewrite <- (quantile_edges_length x q).
  apply drop_duplicates_length.
Qed.


End QcutFacts.

(** ** The edges of a group that [float64] holds exactly *)

Module EdgeFacts.
Import Float64 Float64Facts RoundFacts LerpFacts Qcut SortFacts QuantileFacts QcutFacts.
Local Open Scope Q_scope.

(** The 21 quantiles of [qcut(x, 20)]. *)
Lemma levels_ok_20 : levels_ok 20 = true.
Proof. vm_compute. reflexivity. Qed.

Section Levels.
Variable q : nat.
Hypothesis Hq : levels_ok q = true.

Lemma level_first : level q 0 == 0.
Proof.
  unfold levels_ok in Hq. apply andb_prop in Hq. destruct Hq as [H _].
  apply andb_prop in H. destruct H as [_ H]. now apply Qeq_bool_iff.
Qed.

Lemma level_last : level q q == 1.
Proof.
  unfold levels_ok in Hq. apply andb_prop in Hq. destruct Hq as [_ H].
  now apply Qeq_bool_iff.
Qed.




End Levels.

Section ExactGroup.
Variable x : list Z.
Variable q : nat.
Hypothesis Hq : levels_ok q = true.
Hypothesis Hq2 : q <> 1%nat.
Hypothesis Hx : x <> [].
Hypothesis Hex : forall z, In z x -> (0 <= z < 2 ^ 53)%Z.
Hypothesis Hlen : (Z.of_nat (length x) <= 2 ^ 53)%Z.

Let gmin : Q := inject_Z (group_min x).
Let gmax : Q := inject_Z (group_max x).

Lemma sort_exact z : In z (sort x) -> (0 <= z < 2 ^ 53)%Z.
Proof. intros H. apply Hex. now apply sort_In. Qed.

Lemma sort_nonempty : (0 < length (sort x))%nat.
Proof. rewrite sort_length. destruct x; [congruence|simpl; lia]. Qed.

Lemma sort_short : (Z.of_nat (length (sort x)) <= 2 ^ 53)%Z.
Proof. now rewrite sort_length. Qed.

Lemma quantile_edges_eq :
  quantile_edges x q
  = map (fun k => np_quantile (sort x) (level q k)) (seq 0 (q + 1)).
Proof. reflexivity. Qed.




Lemma quantile_edges_head :
  exists e0 tl, quantile_edges x q = e0 :: tl /\ e0 == gmin.
Proof.
  rewrite quantile_edges_eq, Nat.add_1_r. cbn [seq map].
  eexists _, _. split; [reflexivity|].
  apply (np_quantile_zero (sort x) (sort_ascending x) sort_exact
           sort_nonempty sort_short). now apply level_first.
Qed.

Lemma quantile_edges_top :
  exists top, In top (quantile_edges x q) /\ top == gmax.
Proof.
  exists (np_quantile (sort x) (level q q)). split.
  - rewrite quantile_edges_eq. apply in_map_iff. exists q. split; [reflexivity|].
    apply in_seq. lia.
  - pose proof (np_quantile_one (sort x) sort_exact sort_nonempty
                  (level q q) (level_last q Hq)) as H.
    rewrite sort_length in H. exact H.
Qed.

Lemma bins_of_unique : bins_of x q = unique (quantile_edges x q).
Proof.
  unfold bins_of. apply drop_duplicates_unique. rewrite quantile_edges_length. lia.
Qed.



Lemma bins_of_head : exists b0 tl, bins_of x q = b0 :: tl /\ b0 == gmin.
Proof.
  rewrite bins_of_unique. destruct quantile_edges_head as (e0 & tl & -> & E).
  destruct (unique_head e0 tl) as [tl' ->]. eauto.
Qed.

Lemma bins_of_top : exists top, In top (bins_of x q) /\ top == gmax.
Proof.
  rewrite bins_of_unique. destruct quantile_edges_top as (top & Hin & E).
  destruct (unique_covers _ _ Hin) as (b' & Hb' & Eb'). exists b'. split; [assumption|].
  now rewrite <- Eb'.
Qed.

(** The group has two different values: there are at least two edges. *)
Lemma bins_of_two :
  (group_min x < group_max x)%Z ->
  exists b0 b1 tl, bins_of x q = b0 :: b1 :: tl /\ b0 == gmin.
Proof.
  intros Hlt. destruct bins_of_head as (b0 & tl & E & E0).
  destruct bins_of_top as (top & Hin & Et). rewrite E in Hin.
  destruct tl as [|b1 tl]; [|eauto].
  exfalso. destruct Hin as [<-|[]].
  assert (F : gmin == gmax) by (rewrite <- E0; exact Et).
  unfold gmin, gmax in F. apply (proj1 (inject_Z_injective _ _)) in F. lia.
Qed.

Lemma group_bounds u : In u x -> (group_min x <= u <= group_max x)%Z.
Proof.
  intros Hu. split.
  - apply ascending_first; [apply sort_ascending|now apply sort_In].
  - unfold group_max. rewrite <- (sort_length x).
    apply ascending_last; [apply sort_ascending|now apply sort_In].
Qed.

(** Every value of a group with two different values falls in a bin:
    the smallest in the first, the largest in the last. *)
Lemma cut_defined u :
  In u x -> (group_min x < group_max x)%Z ->
  exists c, cut_one (bins_of x q) (of_int u) = Some c.
Proof.
  intros Hu Hlt. destruct (bins_of_two Hlt) as (b0 & b1 & tl & E & E0).
  destruct bins_of_top as (top & Hin & Et).
  destruct (group_bounds u Hu) as [L U]. rewrite Zle_Qle in L, U.
  fold gmin in L. fold gmax in U.
  pose proof (Hex u Hu) as Hu'.
  rewrite (cut_one_proper _ _ (inject_Z u)) by (apply of_int_exact; lia).
  rewrite E in *.
  apply cut_one_defined with (b := top); [discriminate|lra|assumption|lra].
Qed.



End ExactGroup.

End EdgeFacts.

(** ** The [DECILE] column *)

Module DecileFacts.
Import Qcut SortFacts QcutFacts.

Lemma buckets_eq x q : buckets x q = Z.of_nat (length (bins_of x q)) - 1.
Proof. reflexivity. Qed.


Lemma decile_lambda_pointwise x : decile_lambda x = map (decile_of x) x.
Proof.
  unfold decile_lambda, qcut. rewrite map_map. apply map_ext. intros v.
  unfold decile_of. reflexivity.
Qed.

Lemma group_column_app t1 t2 s :
  group_column (t1 ++ t2) s = group_column t1 s ++ group_column t2 s.
Proof. unfold group_column. now rewrite filter_app, map_app. Qed.

Lemma group_column_cons_same r t :
  group_column (r :: t) (STATE r) = AREALAND r :: group_column t (STATE r).
Proof. unfold group_column, same_state. simpl. now rewrite String.eqb_refl. Qed.

Lemma transform_rows_pointwise f h t before rest :
  (forall x, f x = map (h x) x) ->
  t = before ++ rest ->
  transform_rows f t before rest
  = map (fun r => h (group_column t (STATE r)) (AREALAND r)) rest.
Proof.
  intros Hf. revert before. induction rest as [|r rest IH]; intros before Ht; simpl.
  - reflexivity.
  - f_equal.
    + rewrite Hf. rewrite Ht at 2. rewrite group_column_app, group_column_cons_same.
      rewrite map_app. simpl.
      rewrite app_nth2 by (rewrite length_map; lia).
      rewrite length_map, Nat.sub_diag. simpl. now rewrite Ht.
    + apply IH. rewrite Ht. now rewrite <- app_assoc.
Qed.

Lemma combine_map_self {A B} (g : A -> B) l :
  combine l (map g l) = map (fun a => (a, g a)) l.
Proof. induction l; simpl; congruence. Qed.

Lemma assign_decile_rows t :
  assign_decile t
  = map (fun f => mkRow f (decile_of (group_column t (STATE f)) (AREALAND f))) t.
Proof.
  unfold assign_decile, groupby_transform.
  rewrite (transform_rows_pointwise decile_lambda decile_of t [] t
             decile_lambda_pointwise eq_refl).
  rewrite combine_map_self, map_map. reflexivity.
Qed.

Lemma In_assign_decile t r :
  In r (assign_decile t) <->
  In (feature r) t
  /\ DECILE r = decile_of (group_column t (STATE r)) (AREALAND r).
Proof.
  rewrite assign_decile_rows, in_map_iff. split.
  - intros (f & <- & Hf). simpl. auto.
  - intros [Hf Hd]. exists (feature r). split; [|assumption].
    destruct r as [f d]. simpl in *. now subst.
Qed.

Lemma group_column_In t f : In f t -> In (AREALAND f) (group_column t (STATE f)).
Proof.
  intros Hf. unfold group_column. apply in_map, filter_In. split; [assumption|].
  unfold same_state. apply String.eqb_refl.
Qed.

Lemma group_column_In_inv t s z :
  In z (group_column t s) -> exists f, In f t /\ STATE f = s /\ AREALAND f = z.
Proof.
  unfold group_column. rewrite in_map_iff. intros (f & Hz & Hf).
  apply filter_In in Hf. destruct Hf as [Hf Hs].
  unfold same_state in Hs. apply String.eqb_eq in Hs. eauto.
Qed.

Lemma decile_of_range x v d : decile_of x v = Some d -> 1 <= d <= buckets x 20.
Proof.
  rewrite buckets_eq. unfold decile_of.
  destruct (cut_one _ _) as [c|] eqn:E; [|discriminate].
  cbn [add_one]. intros [= <-]. apply cut_one_range in E. lia.
Qed.

Lemma buckets_le x : buckets x 20 <= 20.
Proof. rewrite buckets_eq. pose proof (bins_of_length x 20). lia. Qed.

End DecileFacts.

(** ** Tables that [float64] holds exactly *)

Module ExactFacts.
Import Float64 Float64Facts Qcut SortFacts QcutFacts EdgeFacts DecileFacts.

Lemma exactly_representable_spec z :
  exactly_representable z = true <-> 0 <= z < 2 ^ 53.
Proof.
  unfold exactly_representable. rewrite andb_true_iff, Z.leb_le, Z.ltb_lt. tauto.
Qed.

Lemma areas_exact_rows t f : areas_exact t = true -> In f t -> 0 <= AREALAND f < 2 ^ 53.
Proof.
  unfold areas_exact. rewrite andb_true_iff, forallb_forall. intros [_ H] Hf.
  now apply exactly_representable_spec, H.
Qed.

Lemma areas_exact_group t s z :
  areas_exact t = true -> In z (group_column t s) -> 0 <= z < 2 ^ 53.
Proof.
  intros Ht Hz. apply group_column_In_inv in Hz. destruct Hz as (f & Hf & _ & <-).
  now apply (areas_exact_rows t).
Qed.

Lemma group_column_length t s : (length (group_column t s) <= length t)%nat.
Proof. unfold group_column. rewrite length_map. apply filter_length_le. Qed.

Lemma areas_exact_length t s :
  areas_exact t = true -> Z.of_nat (length (group_column t s)) <= 2 ^ 53.
Proof.
  unfold areas_exact. rewrite andb_true_iff, exactly_representable_spec.
  intros [H _]. pose proof (group_column_length t s). lia.
Qed.



Section ExactColumn.
Variable x : list Z.
Hypothesis Hex : forall z, In z x -> 0 <= z < 2 ^ 53.
Hypothesis Hlen : Z.of_nat (length x) <= 2 ^ 53.

Lemma nonempty u : In u x -> x <> [].
Proof. intros H E. now rewrite E in H. Qed.

Lemma q_20 : 20%nat <> 1%nat.
Proof. discriminate. Qed.

Lemma two_values v w : In v x -> In w x -> v <> w -> group_min x < group_max x.
Proof.
  intros Hv Hw Hvw.
  pose proof (group_bounds x v Hv).
  pose proof (group_bounds x w Hw). lia.
Qed.

Lemma decile_of_defined u v w :
  In u x -> In v x -> In w x -> v <> w -> exists d, decile_of x u = Some d.
Proof.
  intros Hu Hv Hw Hvw. unfold decile_of.
  destruct (cut_defined x 20 levels_ok_20 q_20 (nonempty u Hu) Hex Hlen u Hu
              (two_values v w Hv Hw Hvw)) as [c Hc].
  rewrite Hc. cbn [add_one]. eauto.
Qed.

Lemma decile_of_mono u v d d' :
  In u x -> In v x -> u <= v ->
  decile_of x u = Some d -> decile_of x v = Some d' -> d <= d'.
Proof.
  unfold decile_of. intros Hu Hv Huv.
  destruct (cut_one _ (of_int u)) as [c|] eqn:E; [|discriminate].
  destruct (cut_one _ (of_int v)) as [c'|] eqn:E'; [|discriminate].
  cbn [add_one]. intros [= <-] [= <-].
  assert (Hle : (of_int u <= of_int v)%Q).
  { pose proof (Hex u Hu). pose proof (Hex v Hv).
    rewrite (of_int_exact u), (of_int_exact v) by lia.
    now rewrite <- Zle_Qle. }
  pose proof (cut_one_mono _ _ _ c c' Hle E E'). lia.
Qed.




End ExactColumn.

End ExactFacts.


Section DecileClaims.
Import Qcut SortFacts QcutFacts DecileFacts ExactFacts.

(** C2, amended.  In a table of fewer than [2^53] rows whose land areas
    are all non-negative and below [2^53], the decile is monotone in the
    land area within one state: of two rows of the same state, the one
    with the larger [AREALAND] has a decile, so has the other, and its
    decile is at least the other's. *)
Theorem decile_monotone_in_area (t : Table) (r1 r2 : Row) :
  areas_exact t = true ->
  In r1 (assign_decile t) -> In r2 (assign_decile t) ->
  STATE r1 = STATE r2 -> AREALAND r1 < AREALAND r2 ->
  exists d1 d2, DECILE r1 = Some d1 /\ DECILE r2 = Some d2 /\ d1 <= d2.
Proof.
  intros Ht H1 H2 Hs Ha.
  apply In_assign_decile in H1, H2. destruct H1 as [Hf1 Hd1], H2 as [Hf2 Hd2].
  rewrite <- Hs in Hd2.
  pose proof (group_column_In t r1 Hf1) as Hu1.
  pose proof (group_column_In t r2 Hf2) as Hu2. rewrite <- Hs in Hu2.
  assert (Hne : AREALAND r1 <> AREALAND r2) by lia.
  pose proof (fun z => areas_exact_group t (STATE r1) z Ht) as Hex.
  pose proof (areas_exact_length t (STATE r1) Ht) as Hlen.
  destruct (decile_of_defined _ Hex Hlen _ _ _ Hu1 Hu1 Hu2 Hne) as [d1 E1].
  destruct (decile_of_defined _ Hex Hlen _ _ _ Hu2 Hu1 Hu2 Hne) as [d2 E2].
  exists d1, d2. rewrite Hd1, Hd2. repeat split; try assumption.
  eapply (decile_of_mono _ Hex); [exact Hu1|exact Hu2| |exact E1|exact E2]. lia.
Qed.

(** C3, amended.  The decile of a row is missing or lies between 1 and
    20. *)
Theorem decile_missing_or_in_range (t : Table) (r : Row) :
  In r (assign_decile t) ->
  DECILE r = None \/ exists d, DECILE r = Some d /\ 1 <= d <= 20.
Proof.
  intros Hr. apply In_assign_decile in Hr. destruct Hr as [_ Hd].
  destruct (DECILE r) as [d|]; [right|now left].
  exists d. split; [reflexivity|]. symmetry in Hd. apply decile_of_range in Hd.
  pose proof (buckets_le (group_column t (STATE r))). lia.
Qed.


End DecileClaims.

(** The doubles of everyday examples: [2^53 + 1] is not one, a tenth is
    [0.1000000000000000055...], and [0.1 + 0.2] is the double above the
    one of [0.3]; the fourth of the 21 quantiles is
    [0.15000000000000002]. *)
Example round64_values :
  Float64.of_int (2 ^ 53 + 1) = inject_Z (2 ^ 53)
  /\ Float64.div 1 10 = (3602879701896397 # 36028797018963968)%Q
  /\ Float64.add (Float64.div 1 10) (Float64.div 2 10)
     = (1351079888211149 # 4503599627370496)%Q
  /\ Float64.div 3 10 = (5404319552844595 # 18014398509481984)%Q
  /\ level 20 3 = (1351079888211149 # 9007199254740992)%Q.
Proof. vm_compute. repeat split. Qed.

Example decile_lambda_values :
  decile_lambda [0; 0; 100] = [Some 1; Some 1; Some 10]
  /\ decile_lambda [5; 5; 5] = [None; None; None]
  /\ decile_lambda [7] = [None]
  /\ decile_lambda [10; 30; 20; 40] = [Some 1; Some 14; Some 7; Some 20].
Proof. vm_compute. repeat split. Qed.

(** Four values of six are 1: the first twelve edges are 1, and the
    thirteenth, at the quantile 0.6000000000000001, is the double just
    above 1.  It is an edge of its own, and the binning ends with nine
    buckets. *)
Example quantile_edges_ties :
  nth 12 (Qcut.quantile_edges [1; 3; 2; 1; 1; 1] 20) 0%Q
  = (2251799813685249 # 2251799813685248)%Q
  /\ Qcut.buckets [1; 3; 2; 1; 1; 1] 20 = 9
  /\ decile_lambda [1; 3; 2; 1; 1; 1]
     = [Some 1; Some 9; Some 5; Some 1; Some 1; Some 1].
Proof. vm_compute. repeat split. Qed.

Example assign_decile_colorado :
  map DECILE (assign_decile colorado_table) = [Some 20; Some 1; Some 10].
Proof. vm_compute. reflexivity. Qed.

Example assign_decile_ri :
  map DECILE (assign_decile ri_table) = [Some 1; Some 1; Some 10]
  /\ state_buckets ri_table "44" = 10.
Proof. vm_compute. split; reflexivity. Qed.

Lemma decile_monotone_in_area_witness :
  exists d1 d2,
    DECILE ward_row = Some d1 /\ DECILE boulder_row = Some d2 /\ d1 <= d2.
Proof.
  apply (decile_monotone_in_area colorado_table ward_row boulder_row).
  - vm_compute. reflexivity.
  - vm_compute. right. left. reflexivity.
  - vm_compute. left. reflexivity.
  - reflexivity.
  - vm_compute. reflexivity.
Defined.

(** C2, as stated, fails on two places whose areas are [2^53] and
    [2^53 + 1] square metres: as [float64] the two areas are the same
    number, every edge is that number, and neither row is given a
    decile. *)
Lemma decile_monotone_counterexample :
  assign_decile vast_table = [vast_row; vaster_row]
  /\ STATE vast_row = STATE vaster_row
  /\ AREALAND vast_row < AREALAND vaster_row < 2 ^ 63
  /\ ~ (exists d1 d2,
          DECILE vast_row = Some d1 /\ DECILE vaster_row = Some d2 /\ d1 <= d2).
Proof.
  split; [vm_compute; reflexivity|]. split; [reflexivity|].
  split; [vm_compute; split; reflexivity|].
  intros (d1 & d2 & H & _). discriminate H.
Qed.

(** C3, as stated, fails on a state with a single place: its row is given
    no decile at all. *)
Lemma decile_range_counterexample :
  assign_decile one_place_table = [washington_row]
  /\ ~ (forall r : Row, In r (assign_decile one_place_table) ->
                        exists d, DECILE r = Some d /\ 1 <= d <= 20).
Proof.
  split; [vm_compute; reflexivity|].
  intros H. destruct (H washington_row) as (d & Hd & _).
  - vm_compute. left. reflexivity.
  - discriminate Hd.
Qed.

Lemma decile_missing_or_in_range_witness :
  DECILE boulder_row = None
  \/ exists d, DECILE boulder_row = Some d /\ 1 <= d <= 20.
Proof.
  apply (decile_missing_or_in_range colorado_table boulder_row).
  vm_compute. left. reflexivity.
Defined.


(** ** What one fetch does, by what the network delivers *)

Module FetchFacts.

Lemma dict_get_set d key value : dict_get (dict_set d key value) key = Some value.
Proof.
  induction d as [|[k v] d IH]; simpl.
  - now rewrite Z.eqb_refl.
  - destruct (Z.eqb_spec k key) as [->|NE]; simpl.
    + now rewrite Z.eqb_refl.
    + destruct (Z.eqb_spec k key); [contradiction|assumption].
Qed.

Lemma fetch_body_stores layer resp rows w :
  fetched_rows (inr resp) = Some rows ->
  fetch_body layer resp w
  = (inr tt,
     mkWorld (dict_set (geo_data w) layer rows)
             (stdout w ++ [("✅ Successfully fetched " ++ str_of_nat (length rows)
                            ++ " centroids.")%string])).
Proof.
  unfold fetched_rows, fetch_body, raise_for_status, bind. intros H.
  destruct ((400 <=? status_code resp) && (status_code resp <? 600))%Z;
    [discriminate|].
  unfold ret, lift. destruct (json_result resp) as [e|[members|type_error]]; try discriminate.
  unfold json_getitem.
  destruct (members_get members "features") as [[features|missing|type_error]|]; try discriminate.
  injection H as ->. unfold from_features, ret, geo_data_setitem, geo_data_getitem.
  cbn [geo_data stdout]. rewrite dict_get_set. reflexivity.
Qed.

Lemma fetch_body_keeps_geo_data layer resp w :
  fetched_rows (inr resp) = None ->
  geo_data (snd (fetch_body layer resp w)) = geo_data w.
Proof.
  unfold fetched_rows, fetch_body, raise_for_status, bind. intros H.
  destruct ((400 <=? status_code resp) && (status_code resp <? 600))%Z;
    [reflexivity|].
  unfold ret, lift. destruct (json_result resp) as [e|[members|type_error]]; try reflexivity.
  unfold json_getitem.
  destruct (members_get members "features") as [[features|missing|type_error]|];
    try discriminate; reflexivity.
Qed.

Lemma except_clauses_keeps_geo_data response e w :
  geo_data (snd (except_clauses response e w)) = geo_data w.
Proof.
  unfold except_clauses.
  destruct (is_RequestException e); [reflexivity|].
  destruct (is_KeyError_or_ValueError e); [|reflexivity].
  unfold bind, print. cbn [geo_data stdout]. destruct response; reflexivity.
Qed.

Lemma get_tiger_polygons_stores net layer where_clause fields rows w :
  fetched_rows (net (the_get_call default_service layer where_clause fields))
  = Some rows ->
  get_tiger_polygons net layer where_clause fields w
  = (inr tt,
     mkWorld (dict_set (geo_data w) layer rows)
             (stdout w ++ [("✅ Successfully fetched " ++ str_of_nat (length rows)
                            ++ " centroids.")%string])).
Proof.
  unfold get_tiger_polygons, get_tiger_polygons_at. intros H.
  destruct (net _) as [e|resp]; [discriminate|].
  unfold try_except. now rewrite (fetch_body_stores layer resp rows w H).
Qed.

Lemma get_tiger_polygons_keeps_geo_data net layer where_clause fields w :
  fetched_rows (net (the_get_call default_service layer where_clause fields))
  = None ->
  geo_data (snd (get_tiger_polygons net layer where_clause fields w)) = geo_data w.
Proof.
  unfold get_tiger_polygons, get_tiger_polygons_at. intros H.
  destruct (net _) as [e|resp]; [apply except_clauses_keeps_geo_data|].
  unfold try_except. pose proof (fetch_body_keeps_geo_data layer resp w H) as Hb.
  destruct (fetch_body layer resp w) as [[e|[]] w'] eqn:E; simpl in Hb |- *.
  - now rewrite except_clauses_keeps_geo_data.
  - exact Hb.
Qed.

Lemma get_tiger_polygons_diagnostic net layer where_clause fields k msg w :
  failure_of (net (the_get_call default_service layer where_clause fields))
  = Some (k, msg) ->
  get_tiger_polygons net layer where_clause fields w
  = (inr tt,
     mkWorld (geo_data w)
       (stdout w ++ diagnostic k msg
          (body_of (net (the_get_call default_service layer where_clause fields))))).
Proof.
  unfold get_tiger_polygons, get_tiger_polygons_at, failure_of. intros H.
  destruct (net _) as [e|resp].
  - unfold except_clauses. destruct (is_RequestException e); [|discriminate].
    injection H as <- <-. reflexivity.
  - unfold try_except, fetch_body, raise_for_status, bind.
    destruct ((400 <=? status_code resp) && (status_code resp <? 600))%Z.
    + injection H as <- <-. reflexivity.
    + unfold ret, lift. destruct (json_result resp) as [e|[members|type_error]];
        [| |discriminate].
      * unfold caught_by in H. unfold except_clauses.
        destruct (is_RequestException e); [injection H as <- <-; reflexivity|].
        destruct (is_KeyError_or_ValueError e); [|discriminate].
        injection H as <- <-. unfold bind, print. cbn [geo_data stdout body_of].
        now rewrite <- app_assoc.
      * unfold json_getitem.
        destruct (members_get members "features") as [[features|missing|type_error]|];
          try discriminate.
        -- injection H as <- <-. unfold ret, from_features, raise, except_clauses.
           cbn [is_RequestException is_KeyError_or_ValueError exn_cls exn_msg].
           unfold bind, print. cbn [geo_data stdout body_of].
           now rewrite <- app_assoc.
        -- injection H as <- <-. unfold raise, except_clauses.
           cbn [is_RequestException is_KeyError_or_ValueError exn_cls exn_msg].
           unfold bind, print. cbn [geo_data stdout body_of].
           now rewrite <- app_assoc.
Qed.

Lemma handled_failure_failure_of r k msg :
  handled_failure r = Some (k, msg) -> failure_of r = Some (k, msg).
Proof.
  unfold handled_failure, failure_of. destruct r as [e|resp]; [trivial|].
  destruct ((400 <=? status_code resp) && (status_code resp <? 600))%Z; [trivial|].
  destruct (json_result resp) as [e|[members|type_error]]; try trivial.
  unfold caught_by. destruct (is_RequestException e); [discriminate|trivial].
Qed.

(** [take_chars n s] is the start of [s] and has at most [n]
    characters; a string of at most [n] characters is taken whole. *)
Lemma take_chars_prefix n s : exists rest, s = (take_chars n s ++ rest)%string.
Proof.
  revert n. induction s as [|c s IH]; intros n; simpl; [now exists EmptyString|].
  destruct (is_continuation c).
  - destruct (IH n) as [rest E]. exists rest. simpl. now rewrite <- E.
  - destruct n as [|n]; [now exists (String c s)|].
    destruct (IH n) as [rest E]. exists rest. simpl. now rewrite <- E.
Qed.

Lemma take_chars_count n s : (char_count (take_chars n s) <= n)%nat.
Proof.
  revert n. induction s as [|c s IH]; intros n; simpl; [lia|].
  destruct (is_continuation c) eqn:E; simpl.
  - rewrite E. apply IH.
  - destruct n as [|n]; simpl; [lia|]. rewrite E. specialize (IH n). lia.
Qed.

Lemma take_chars_all n s : (char_count s <= n)%nat -> take_chars n s = s.
Proof.
  revert n. induction s as [|c s IH]; intros n; simpl; [reflexivity|].
  destruct (is_continuation c); intros H.
  - now rewrite IH.
  - destruct n as [|n]; [lia|]. rewrite IH; [reflexivity|lia].
Qed.

End FetchFacts.

(** ** The parallel fetch and the concatenation *)

Module PoolFacts.
Import FetchFacts.

Lemma fetch_all_never_raises net s w : fst (fetch_all net s w) = inr tt.
Proof.
  unfold fetch_all, run_pool.
  destruct s; unfold try_except, bind, submit, future_result, lift, ret.
  - destruct (places_task net w) as [r1 w1].
    destruct (countysubs_task net w1) as [r2 w2].
    destruct r1 as [e1|[]], r2 as [e2|[]]; reflexivity.
  - destruct (countysubs_task net w) as [r2 w2].
    destruct (places_task net w2) as [r1 w1].
    destruct r1 as [e1|[]], r2 as [e2|[]]; reflexivity.
Qed.

Lemma fetch_all_geo_data net s w :
  geo_data (snd (fetch_all net s w)) = geo_data (snd (run_pool net s w)).
Proof.
  unfold fetch_all, run_pool.
  destruct s; unfold try_except, bind, submit, future_result, lift, ret.
  - destruct (places_task net w) as [r1 w1].
    destruct (countysubs_task net w1) as [r2 w2].
    destruct r1 as [e1|[]], r2 as [e2|[]]; reflexivity.
  - destruct (countysubs_task net w) as [r2 w2].
    destruct (places_task net w2) as [r1 w1].
    destruct r1 as [e1|[]], r2 as [e2|[]]; reflexivity.
Qed.

Lemma run_pool_keeps_geo_data net s w :
  fetched_rows (net places_call) = None ->
  fetched_rows (net countysubs_call) = None ->
  geo_data (snd (run_pool net s w)) = geo_data w.
Proof.
  intros Hp Hc.
  pose proof (fun w => get_tiger_polygons_keeps_geo_data
                         net places_layer "1=1"%string fetched_fields w Hp) as Kp.
  pose proof (fun w => get_tiger_polygons_keeps_geo_data
                         net countysubs_layer countysubs_where fetched_fields w Hc) as Kc.
  fold (places_task net) in Kp. fold (countysubs_task net) in Kc.
  unfold run_pool. destruct s; unfold bind, submit, ret.
  - specialize (Kp w). destruct (places_task net w) as [r1 w1]. simpl in Kp.
    specialize (Kc w1). destruct (countysubs_task net w1) as [r2 w2]. simpl in Kc |- *.
    congruence.
  - specialize (Kc w). destruct (countysubs_task net w) as [r2 w2]. simpl in Kc.
    specialize (Kp w2). destruct (places_task net w2) as [r1 w1]. simpl in Kp |- *.
    congruence.
Qed.

End PoolFacts.

Section FetchClaims.
Import FetchFacts PoolFacts.

(** C5.  When the places fetch stores its rows and the county-subdivision
    fetch ends in the handler for request exceptions, the parallel fetch
    returns without raising, whichever worker runs first, the mapping
    holds the places table alone, and the concatenated table is the rows
    fetched for layer 28. *)
Theorem failure_isolation (net : Network) (s : schedule) (rows : Table) (msg : string) :
  fetched_rows (net places_call) = Some rows ->
  failure_of (net countysubs_call) = Some (HttpRequestFailed, msg) ->
  exists w,
    fetch_and_concat net s initial_world = (inr rows, w)
    /\ geo_data w = [(places_layer, rows)]
    /\ fst (fetch_all net s initial_world) = inr tt.
Proof.
  intros Hp Hc. unfold places_call in Hp. unfold countysubs_call in Hc.
  unfold fetch_and_concat, fetch_all, run_pool.
  destruct s; unfold try_except, bind, submit, future_result, lift, ret,
    places_task, countysubs_task.
  - rewrite (get_tiger_polygons_stores _ _ _ _ _ _ Hp).
    rewrite (get_tiger_polygons_diagnostic _ _ _ _ _ _ _ Hc).
    unfold read_geo_data. cbn [fst snd geo_data stdout initial_world dict_set
                                 values map pd_concat concat].
    rewrite app_nil_r. eexists. repeat split.
  - rewrite (get_tiger_polygons_diagnostic _ _ _ _ _ _ _ Hc).
    rewrite (get_tiger_polygons_stores _ _ _ _ _ _ Hp).
    unfold read_geo_data. cbn [fst snd geo_data stdout initial_world dict_set
                                 values map pd_concat concat].
    rewrite app_nil_r. eexists. repeat split.
Qed.

(** C6, amended.  A fetch that ends in a transport failure (the request
    raised a request exception, or the status was an error status) prints
    one line with the text of the exception and nothing of the body; a
    fetch that ends in a parse failure (the answer lacks the key, a
    feature lacks a member, or the body does not decode and the error is
    a plain [ValueError]) prints the text of the exception and a second
    line with the first 200 characters of the body.  In both cases the
    call returns and the mapping is left as it was. *)
Theorem fetch_failure_diagnostic (net : Network) (layer_id : Z)
    (where_clause fields : string) (k : failure_kind) (msg : string) (w : World) :
  handled_failure (net (the_get_call default_service layer_id where_clause fields))
  = Some (k, msg) ->
  get_tiger_polygons net layer_id where_clause fields w
  = (inr tt,
     mkWorld (geo_data w)
       (stdout w ++
        match k with
        | HttpRequestFailed => [("❌ HTTP Request failed: " ++ msg)%string]
        | ParseFailed =>
            [("❌ Failed to parse response JSON: " ++ msg)%string;
             ("   Server Response: "
              ++ take_chars 200
                   (body_of (net (the_get_call default_service layer_id
                                               where_clause fields)))
              ++ "...")%string]
        end)).
Proof.
  intros H. apply handled_failure_failure_of in H.
  rewrite (get_tiger_polygons_diagnostic _ _ _ _ _ _ _ H).
  destruct k; reflexivity.
Qed.

(** C7.  The call the fetcher makes passes no [timeout] to
    [requests.get]; the value 60 travels in the query string, as the
    parameter [timeout] of the request to the server. *)
Theorem request_has_no_client_timeout (service : string) (layer_id : Z)
    (where_clause fields : string) :
  call_timeout (the_get_call service layer_id where_clause fields) = None
  /\ In ("timeout"%string, PInt 60)
        (call_params (the_get_call service layer_id where_clause fields)).
Proof.
  split; [reflexivity|]. cbn [the_get_call call_params params].
  do 8 right. left. reflexivity.
Qed.

(** C9.  When neither fetch stores a table the mapping is empty at the
    concatenation, [pd.concat] raises its [ValueError] and the run ends
    there with that exception. *)
Theorem both_fetches_fail_terminates (i : Inputs) :
  fetched_rows (net i places_call) = None ->
  fetched_rows (net i countysubs_call) = None ->
  exists w,
    run_script i = (inl (mkExn ValueError "No objects to concatenate"), w)
    /\ geo_data w = [].
Proof.
  intros Hp Hc.
  pose proof (fetch_all_never_raises (net i) (sched i) initial_world) as Hr.
  pose proof (fetch_all_geo_data (net i) (sched i) initial_world) as Hg.
  rewrite (run_pool_keeps_geo_data _ _ _ Hp Hc) in Hg.
  unfold run_script, script, fetch_and_concat, bind.
  destruct (fetch_all (net i) (sched i) initial_world) as [r w].
  cbn [fst snd] in Hr, Hg. subst r. unfold read_geo_data.
  rewrite Hg. cbn [initial_world geo_data values map pd_concat raise].
  exists w. split; [reflexivity|exact Hg].
Qed.

End FetchClaims.

Lemma failure_isolation_witness :
  exists w,
    fetch_and_concat net_places_only CountysubsFirst initial_world
    = (inr [boulder; ward], w)
    /\ geo_data w = [(places_layer, [boulder; ward])]
    /\ fst (fetch_all net_places_only CountysubsFirst initial_world) = inr tt.
Proof.
  apply (failure_isolation net_places_only CountysubsFirst [boulder; ward]
                           "Connection refused").
  - vm_compute. reflexivity.
  - vm_compute. reflexivity.
Defined.

(** C6, as stated, fails for an error status: the one line printed holds
    nothing of the body the server sent. *)
Lemma fetch_failure_body_counterexample :
  handled_failure (net_503 countysubs_call)
  = Some (HttpRequestFailed, "503 Server Error: Service Unavailable for url"%string)
  /\ stdout (snd (countysubs_task net_503 initial_world))
     = ["❌ HTTP Request failed: 503 Server Error: Service Unavailable for url"%string]
  /\ existsb (contains (take_chars 200 (text response_503)))
             (stdout (snd (countysubs_task net_503 initial_world))) = false.
Proof. vm_compute. repeat split. Qed.

Lemma fetch_failure_diagnostic_witness :
  get_tiger_polygons net_no_features countysubs_layer countysubs_where
                     fetched_fields initial_world
  = (inr tt,
     mkWorld []
       ["❌ Failed to parse response JSON: 'features'"%string;
        ("   Server Response: " ++ error_body ++ "...")%string]).
Proof.
  apply (fetch_failure_diagnostic net_no_features countysubs_layer countysubs_where
                                  fetched_fields ParseFailed "'features'" initial_world).
  vm_compute. reflexivity.
Defined.

Lemma both_fetches_fail_terminates_witness :
  exists w,
    run_script inputs_503
    = (inl (mkExn ValueError "No objects to concatenate"), w)
    /\ geo_data w = [].
Proof.
  apply (both_fetches_fail_terminates inputs_503).
  - vm_compute. reflexivity.
  - vm_compute. reflexivity.
Defined.

(** A feature without its properties: the second clause reports the
    [KeyError] of [from_features]. *)
Example fetch_incomplete_feature :
  get_tiger_polygons net_incomplete places_layer "1=1" fetched_fields initial_world
  = (inr tt,
     mkWorld []
       ["❌ Failed to parse response JSON: 'properties'"%string;
        ("   Server Response: " ++ incomplete_body ++ "...")%string]).
Proof. vm_compute. reflexivity. Qed.

(** Characters, not bytes, are counted. *)
Example take_chars_utf8 :
  take_chars 2 "né!?" = "né"%string /\ String.length "né"%string = 3%nat.
Proof. split; reflexivity. Qed.

Example run_script_503_prints :
  stdout (snd (run_script inputs_503))
  = ["❌ HTTP Request failed: 503 Server Error: Service Unavailable for url"%string;
     "❌ HTTP Request failed: 503 Server Error: Service Unavailable for url"%string].
Proof. vm_compute. reflexivity. Qed.

(** ** Sentinel cleanup *)

Section CleanupClaims.

(** C4.  The cleanup keeps every row in its place and every other column
    as it was; a row whose income was the sentinel holds a missing value
    afterwards, and every other row is unchanged. *)
Theorem sentinel_cleanup_rows (gdf : list IncomeRow) (i : nat) (r : IncomeRow) :
  nth_error gdf i = Some r ->
  length (sentinel_cleanup gdf) = length gdf
  /\ exists r',
       nth_error (sentinel_cleanup gdf) i = Some r'
       /\ other_columns r' = other_columns r
       /\ (B19013_001E r = Some sentinel -> B19013_001E r' = None)
       /\ (B19013_001E r <> Some sentinel -> r' = r).
Proof.
  intros H. unfold sentinel_cleanup. split; [apply length_map|].
  rewrite nth_error_map, H. cbn [option_map].
  eexists. split; [reflexivity|]. unfold sentinel_mask.
  destruct (B19013_001E r) as [v|] eqn:E;
    [destruct (Z.eqb_spec v sentinel) as [->|NE]|]; cbn [other_columns B19013_001E].
  - split; [reflexivity|]. split; [reflexivity|]. intros Hne. now elim Hne.
  - split; [reflexivity|]. split; [|reflexivity]. intros [= Hv]. contradiction.
  - split; [reflexivity|]. split; [discriminate|reflexivity].
Qed.

End CleanupClaims.

Lemma sentinel_cleanup_rows_witness :
  length (sentinel_cleanup income_table) = length income_table
  /\ exists r',
       nth_error (sentinel_cleanup income_table) 1 = Some r'
       /\ other_columns r' = [("GEOID"%string, "080130122032"%string)]
       /\ (Some (-666666666) = Some sentinel -> B19013_001E r' = None)
       /\ (Some (-666666666) <> Some sentinel ->
           r' = mkIncomeRow [("GEOID"%string, "080130122032"%string)]
                            (Some (-666666666))).
Proof.
  apply (sentinel_cleanup_rows income_table 1
           (mkIncomeRow [("GEOID"%string, "080130122032"%string)] (Some (-666666666)))).
  reflexivity.
Defined.

Example sentinel_cleanup_income_table :
  map B19013_001E (sentinel_cleanup income_table) = [Some 98750; None; None].
Proof. reflexivity. Qed.

(** ** Labels *)

Module LabelFacts.

Lemma cube_inject (d : Z) :
  (inject_Z (d ^ 3) / inject_Z (20 ^ 3) == (inject_Z d / 20) ^ 3)%Q.
Proof.
  replace (d ^ 3) with (d * d * d) by ring.
  change (20 ^ 3) with 8000.
  rewrite !inject_Z_mult. change (inject_Z 8000) with (8000 # 1)%Q.
  field.
Qed.

Lemma fontsize_max (d : Z) :
  (fontsize (Some d) == Qmax 3 (9 * (inject_Z d / 20) ^ 3))%Q.
Proof.
  unfold fontsize. now rewrite cube_inject.
Qed.

Lemma fontsize_ge_3 decile : (3 <= fontsize decile)%Q.
Proof.
  destruct decile as [d|]; unfold fontsize; [apply Q.le_max_l|apply Qle_refl].
Qed.

Lemma cubic_above_3 (d : Z) :
  19 <= d -> (3 <= 9 * (inject_Z (d ^ 3) / inject_Z (20 ^ 3)))%Q.
Proof.
  intros Hd. assert (H : 19 ^ 3 <= d ^ 3) by (apply Z.pow_le_mono_l; lia).
  change (19 ^ 3) with 6859 in H. change (20 ^ 3) with 8000.
  remember (d ^ 3) as c eqn:Ec. clear Ec.
  unfold Qle. cbn [Qnum Qden Qmult Qdiv Qinv inject_Z]. lia.
Qed.

End LabelFacts.

Section LabelClaims.
Import LabelFacts.

Lemma visible_mask_true (e : Extent) (r : Row) :
  visible_mask e r = true <->
  (xmin e <= CENTLON r <= xmax e)%Q /\ (ymin e <= CENTLAT r <= ymax e)%Q
  /\ exists d, DECILE r = Some d /\ 19 <= d.
Proof.
  unfold visible_mask, decile_ge_19. rewrite !andb_true_iff, !Qle_bool_iff.
  destruct (DECILE r) as [d|].
  - rewrite Z.leb_le. split.
    + intros [[[[H1 H2] H3] H4] H5]. eauto 10.
    + intros [[H1 H2] [[H3 H4] (d' & [= <-] & H5)]]. auto.
  - split.
    + intros [_ H]. discriminate.
    + intros [_ [_ (d & H & _)]]. discriminate.
Qed.

(** C1.  A row of the table whose centroid lies within the extent and
    whose decile is at least 19 gets a marker at its centroid and a label
    with its name, 0.015 above the centroid; every label and every marker
    drawn is the one of such a row; and there is one of each per such
    row, in table order. *)
Theorem labels_exactly_visible_top_deciles (e : Extent) (stacked : list Row) :
  (forall r : Row,
     In r stacked ->
     (xmin e <= CENTLON r <= xmax e)%Q -> (ymin e <= CENTLAT r <= ymax e)%Q ->
     (exists d, DECILE r = Some d /\ 19 <= d) ->
     In (mkText (CENTLON r) (CENTLAT r + (15 # 1000)) (NAME r) (fontsize (DECILE r)))
        (labels (draw_centroids e stacked))
     /\ In (CENTLON r, CENTLAT r) (markers (draw_centroids e stacked)))
  /\ (forall l, In l (labels (draw_centroids e stacked)) ->
       exists r : Row,
         In r stacked
         /\ (xmin e <= CENTLON r <= xmax e)%Q /\ (ymin e <= CENTLAT r <= ymax e)%Q
         /\ (exists d, DECILE r = Some d /\ 19 <= d)
         /\ l = mkText (CENTLON r) (CENTLAT r + (15 # 1000)) (NAME r)
                       (fontsize (DECILE r)))
  /\ (forall m, In m (markers (draw_centroids e stacked)) ->
       exists r : Row,
         In r stacked
         /\ (xmin e <= CENTLON r <= xmax e)%Q /\ (ymin e <= CENTLAT r <= ymax e)%Q
         /\ (exists d, DECILE r = Some d /\ 19 <= d)
         /\ m = (CENTLON r, CENTLAT r))
  /\ labels (draw_centroids e stacked)
     = map (fun r : Row =>
              mkText (CENTLON r) (CENTLAT r + (15 # 1000)) (NAME r) (fontsize (DECILE r)))
           (visible_centroids e stacked)
  /\ markers (draw_centroids e stacked)
     = map (fun r : Row => (CENTLON r, CENTLAT r)) (visible_centroids e stacked)
  /\ (forall r : Row,
       In r (visible_centroids e stacked) <->
       In r stacked
       /\ (xmin e <= CENTLON r <= xmax e)%Q
       /\ (ymin e <= CENTLAT r <= ymax e)%Q
       /\ exists d, DECILE r = Some d /\ 19 <= d).
Proof.
  assert (Hvis : forall r : Row,
            In r (visible_centroids e stacked) <->
            In r stacked
            /\ (xmin e <= CENTLON r <= xmax e)%Q
            /\ (ymin e <= CENTLAT r <= ymax e)%Q
            /\ exists d, DECILE r = Some d /\ 19 <= d).
  { intros r. unfold visible_centroids. rewrite filter_In, visible_mask_true. tauto. }
  split; [|split; [|split; [|split; [|split]]]].
  - intros r Hr Hx Hy Hd.
    assert (Hin : In r (visible_centroids e stacked)) by (apply Hvis; auto).
    unfold draw_centroids. cbn [labels markers]. split.
    + apply in_map_iff. exists r. split; [reflexivity|exact Hin].
    + apply in_map_iff. exists r. split; [reflexivity|exact Hin].
  - intros l Hl. unfold draw_centroids in Hl. cbn [labels] in Hl.
    apply in_map_iff in Hl. destruct Hl as (r & <- & Hr).
    apply Hvis in Hr. destruct Hr as (H1 & H2 & H3 & H4).
    exists r. repeat split; try assumption; tauto.
  - intros m Hm. unfold draw_centroids in Hm. cbn [markers] in Hm.
    apply in_map_iff in Hm. destruct Hm as (r & <- & Hr).
    apply Hvis in Hr. destruct Hr as (H1 & H2 & H3 & H4).
    exists r. repeat split; try assumption; tauto.
  - reflexivity.
  - reflexivity.
  - exact Hvis.
Qed.

(** C8.  Every label drawn belongs to a row of the table with a decile of
    at least 19, and its font size is [max(3, 9 (decile/20)^3)]; for these
    rows that is the cubic term itself, it is at least 3, and it is 9 at
    decile 20. *)
Theorem label_fontsize_cubic (e : Extent) (stacked : list Row) (l : TextArtist) :
  In l (labels (draw_centroids e stacked)) ->
  exists (r : Row) (d : Z),
    In r stacked /\ l = label_of r /\ DECILE r = Some d /\ 19 <= d
    /\ (text_fontsize l == Qmax 3 (9 * (inject_Z d / 20) ^ 3))%Q
    /\ (text_fontsize l == 9 * (inject_Z d / 20) ^ 3)%Q
    /\ (3 <= text_fontsize l)%Q
    /\ (d = 20 -> (text_fontsize l == 9)%Q).
Proof.
  unfold draw_centroids. cbn [labels]. rewrite in_map_iff.
  intros (r & <- & Hr). unfold visible_centroids in Hr.
  apply filter_In in Hr. destruct Hr as [Hr Hv].
  apply visible_mask_true in Hv. destruct Hv as (_ & _ & d & Hd & H19).
  exists r, d. cbn [label_of text_fontsize]. rewrite Hd.
  repeat split; try assumption.
  - apply fontsize_max.
  - unfold fontsize. rewrite Q.max_r by now apply cubic_above_3.
    now rewrite cube_inject.
  - apply fontsize_ge_3.
  - intros ->. reflexivity.
Qed.

End LabelClaims.

Example visible_centroids_example :
  visible_centroids front_range stacked_example = [boulder_row].
Proof. reflexivity. Qed.

(** A row at decile 20 and a row at decile 18 inside the extent: the row
    at decile 20 alone is drawn. *)
Example draw_centroids_example :
  draw_centroids front_range stacked_example
  = mkFigure [((-105 # 1)%Q, (40 # 1)%Q)]
             [mkText (-105 # 1) ((40 # 1) + (15 # 1000)) "Boulder" (fontsize (Some 20))].
Proof. reflexivity. Qed.

Example fontsize_values :
  (fontsize (Some 20%Z) == 9)%Q /\ (fontsize (Some 19%Z) == 61731 # 8000)%Q
  /\ (fontsize (Some 13%Z) == 3)%Q /\ (fontsize (Some 1%Z) == 3)%Q
  /\ (fontsize None == 3)%Q.
Proof. repeat split. Qed.

Lemma label_fontsize_cubic_witness :
  exists (r : Row) (d : Z),
    In r stacked_example /\ label_of boulder_row = label_of r
    /\ DECILE r = Some d /\ 19 <= d
    /\ (text_fontsize (label_of boulder_row)
        == Qmax 3 (9 * (inject_Z d / 20) ^ 3))%Q
    /\ (text_fontsize (label_of boulder_row) == 9 * (inject_Z d / 20) ^ 3)%Q
    /\ (3 <= text_fontsize (label_of boulder_row))%Q
    /\ (d = 20 -> (text_fontsize (label_of boulder_row) == 9)%Q).
Proof.
  apply (label_fontsize_cubic front_range stacked_example (label_of boulder_row)).
  left. reflexivity.
Defined.

(** ** A whole run *)

(** The places layer answers with Boulder and Ward, the county
    subdivisions are unreachable: the run goes through, Boulder is the top
    decile of its state and is the one label. *)
Example run_script_places_only :
  exists w,
    run_script inputs_places_only
    = (inr (mkOutcome [mkRow boulder (Some 20); mkRow ward (Some 1)]
              (sentinel_cleanup income_table)
              (mkFigure [(-105 # 1, 40 # 1)]
                        [mkText (-105 # 1) (40015 # 1000) "Boulder" (72000 # 8000)])),
       w)
    /\ stdout w = ["❌ HTTP Request failed: Connection refused"%string;
                   "✅ Successfully fetched 2 centroids."%string].
Proof. eexists. vm_compute. split; reflexivity. Qed.

(** * Further properties *)

(** ** The fetcher *)

Module FetchMore.
Import FetchFacts.

Lemma dict_get_set_other d key k value :
  key <> k -> dict_get (dict_set d k value) key = dict_get d key.
Proof.
  intros Hne. induction d as [|[k' v'] d IH]; simpl.
  - destruct (Z.eqb_spec k key); [congruence|reflexivity].
  - destruct (Z.eqb_spec k' k) as [->|NE]; simpl.
    + destruct (Z.eqb_spec k key); [congruence|reflexivity].
    + destruct (Z.eqb_spec k' key); [reflexivity|exact IH].
Qed.

Lemma get_tiger_polygons_geo_data net layer where_clause fields w :
  geo_data (snd (get_tiger_polygons net layer where_clause fields w))
  = store_into layer (net (the_get_call default_service layer where_clause fields))
               (geo_data w).
Proof.
  unfold store_into.
  destruct (fetched_rows _) as [rows|] eqn:E.
  - now rewrite (get_tiger_polygons_stores _ _ _ _ _ _ E).
  - now apply get_tiger_polygons_keeps_geo_data.
Qed.

Lemma except_clauses_result response e w :
  fst (except_clauses response e w)
  = if is_RequestException e then inr tt
    else if is_KeyError_or_ValueError e
         then match response with
              | Some _ => inr tt
              | None => inl (mkExn UnboundLocalError "response")
              end
         else inl e.
Proof.
  unfold except_clauses.
  destruct (is_RequestException e); [reflexivity|].
  destruct (is_KeyError_or_ValueError e); [|reflexivity].
  unfold bind, print. destruct response; reflexivity.
Qed.

Lemma get_tiger_polygons_result net layer where_clause fields w :
  fst (get_tiger_polygons net layer where_clause fields w)
  = match uncaught (net (the_get_call default_service layer where_clause fields)) with
    | Some e => inl e
    | None => inr tt
    end.
Proof.
  unfold get_tiger_polygons, get_tiger_polygons_at, uncaught.
  destruct (net _) as [e|resp].
  - rewrite except_clauses_result.
    destruct (is_RequestException e); [reflexivity|].
    destruct (is_KeyError_or_ValueError e); reflexivity.
  - unfold try_except, fetch_body, raise_for_status, bind.
    destruct ((400 <=? status_code resp) && (status_code resp <? 600))%Z;
      [reflexivity|].
    unfold ret, lift. destruct (json_result resp) as [e|[members|type_error]].
    + rewrite except_clauses_result.
      destruct (is_RequestException e); [reflexivity|].
      destruct (is_KeyError_or_ValueError e); reflexivity.
    + unfold json_getitem.
      destruct (members_get members "features") as [[features|missing|type_error]|]; try reflexivity.
      unfold from_features, ret, geo_data_setitem, geo_data_getitem.
      cbn [geo_data stdout]. rewrite dict_get_set. reflexivity.
    + reflexivity.
Qed.

Lemma except_clauses_stdout response e w :
  exists lines, stdout (snd (except_clauses response e w)) = stdout w ++ lines.
Proof.
  unfold except_clauses.
  destruct (is_RequestException e); [unfold print; cbn [snd stdout]; eauto|].
  destruct (is_KeyError_or_ValueError e).
  - unfold bind, print, raise. destruct response; cbn [snd stdout].
    + rewrite <- app_assoc. eauto.
    + eauto.
  - exists []. now rewrite app_nil_r.
Qed.

Lemma fetch_body_stdout layer resp w :
  exists lines, stdout (snd (fetch_body layer resp w)) = stdout w ++ lines.
Proof.
  unfold fetch_body, raise_for_status, bind.
  destruct ((400 <=? status_code resp) && (status_code resp <? 600))%Z;
    [exists []; now rewrite app_nil_r|].
  unfold ret, lift. destruct (json_result resp) as [e|[members|type_error]];
    try (exists []; now rewrite app_nil_r).
  unfold json_getitem.
  destruct (members_get members "features") as [[features|missing|type_error]|];
    try (exists []; now rewrite app_nil_r).
  unfold from_features, ret, geo_data_setitem, geo_data_getitem.
  cbn [geo_data stdout]. rewrite dict_get_set. unfold print. cbn [snd stdout]. eauto.
Qed.

Lemma get_tiger_polygons_stdout net layer where_clause fields w :
  exists lines,
    stdout (snd (get_tiger_polygons net layer where_clause fields w))
    = stdout w ++ lines.
Proof.
  unfold get_tiger_polygons, get_tiger_polygons_at.
  destruct (net _) as [e|resp]; [apply except_clauses_stdout|].
  unfold try_except. destruct (fetch_body_stdout layer resp w) as [l1 H1].
  destruct (fetch_body layer resp w) as [[e|[]] w'] eqn:E; cbn [snd] in H1 |- *.
  - destruct (except_clauses_stdout (Some resp) e w') as [l2 H2].
    exists (l1 ++ l2). now rewrite H2, H1, app_assoc.
  - eauto.
Qed.

End FetchMore.

Section FetcherProperties.
Import FetchFacts FetchMore.

(** X1.  A fetch whose answer holds a feature list returns, stores the
    list under its layer id, where a lookup finds it, leaves every other
    key alone and prints the number of rows stored. *)
Theorem fetch_success_stores_and_counts (net : Network) (layer_id : Z)
    (where_clause fields : string) (rows : Table) (w : World) :
  fetched_rows (net (the_get_call default_service layer_id where_clause fields))
  = Some rows ->
  exists w',
    get_tiger_polygons net layer_id where_clause fields w = (inr tt, w')
    /\ dict_get (geo_data w') layer_id = Some rows
    /\ (forall key, key <> layer_id ->
                    dict_get (geo_data w') key = dict_get (geo_data w) key)
    /\ stdout w'
       = stdout w ++ [("✅ Successfully fetched " ++ str_of_nat (length rows)
                       ++ " centroids.")%string].
Proof.
  intros H. rewrite (get_tiger_polygons_stores _ _ _ _ _ _ H).
  eexists. split; [reflexivity|]. cbn [geo_data stdout].
  split; [apply dict_get_set|]. split; [|reflexivity].
  intros key Hne. now apply dict_get_set_other.
Qed.

(** X2.  Whatever the network delivers, and whether the fetch returns or
    raises, the fetcher changes no entry of the mapping but its own
    layer's, and what it prints is added after what was printed. *)
Theorem fetcher_touches_only_its_layer (net : Network) (layer_id : Z)
    (where_clause fields : string) (w : World) (key : Z) :
  key <> layer_id ->
  dict_get (geo_data (snd (get_tiger_polygons net layer_id where_clause fields w))) key
  = dict_get (geo_data w) key
  /\ exists lines,
       stdout (snd (get_tiger_polygons net layer_id where_clause fields w))
       = stdout w ++ lines.
Proof.
  intros Hne. split; [|apply get_tiger_polygons_stdout].
  rewrite get_tiger_polygons_geo_data. unfold store_into.
  destruct (fetched_rows _); [now apply dict_get_set_other|reflexivity].
Qed.

(** X3.  A body that parses to something other than an object, under a
    status that does not raise, makes the fetcher raise a [TypeError]:
    neither clause catches it, nothing is printed and nothing is stored. *)
Theorem non_object_body_escapes (net : Network) (layer_id : Z)
    (where_clause fields : string) (resp : Response) (type_error : string)
    (w : World) :
  net (the_get_call default_service layer_id where_clause fields) = inr resp ->
  (400 <=? status_code resp) && (status_code resp <? 600) = false ->
  json_result resp = inr (JNotObject type_error) ->
  exists e,
    get_tiger_polygons net layer_id where_clause fields w = (inl e, w)
    /\ exn_cls e = TypeError.
Proof.
  intros Hnet Hst Hjs.
  unfold get_tiger_polygons, get_tiger_polygons_at. rewrite Hnet.
  unfold try_except, fetch_body, raise_for_status, bind. rewrite Hst.
  unfold ret, lift. rewrite Hjs. unfold json_getitem, raise, except_clauses.
  cbn [is_RequestException is_KeyError_or_ValueError exn_cls].
  eexists. split; reflexivity.
Qed.

(** X4.  When [requests.get] itself raises a [KeyError] or [ValueError]
    that is no request exception, the second clause prints its first line
    and then fails on the unbound [response]: the fetcher raises an
    [UnboundLocalError] and stores nothing. *)
Theorem parse_clause_without_response (net : Network) (layer_id : Z)
    (where_clause fields : string) (e : exn) (w : World) :
  net (the_get_call default_service layer_id where_clause fields) = inl e ->
  is_RequestException e = false ->
  is_KeyError_or_ValueError e = true ->
  exists e',
    get_tiger_polygons net layer_id where_clause fields w
    = (inl e',
       mkWorld (geo_data w)
               (stdout w ++ [("❌ Failed to parse response JSON: " ++ exn_msg e)%string]))
    /\ exn_cls e' = UnboundLocalError.
Proof.
  intros Hnet Hreq Hkv.
  unfold get_tiger_polygons, get_tiger_polygons_at. rewrite Hnet.
  unfold except_clauses. rewrite Hreq, Hkv. unfold bind, print, raise.
  eexists. split; reflexivity.
Qed.

End FetcherProperties.

Lemma fetch_success_stores_and_counts_witness :
  exists w',
    get_tiger_polygons net_places_only places_layer "1=1" fetched_fields initial_world
    = (inr tt, w')
    /\ dict_get (geo_data w') places_layer = Some [boulder; ward]
    /\ (forall key, key <> places_layer ->
                    dict_get (geo_data w') key = dict_get (geo_data initial_world) key)
    /\ stdout w'
       = stdout initial_world
         ++ [("✅ Successfully fetched " ++ str_of_nat (length [boulder; ward])
              ++ " centroids.")%string].
Proof.
  apply (fetch_success_stores_and_counts net_places_only places_layer "1=1"
           fetched_fields [boulder; ward] initial_world).
  vm_compute. reflexivity.
Defined.

Lemma fetcher_touches_only_its_layer_witness :
  dict_get (geo_data (snd (get_tiger_polygons net_places_only places_layer "1=1"
                             fetched_fields initial_world))) countysubs_layer
  = dict_get (geo_data initial_world) countysubs_layer
  /\ exists lines,
       stdout (snd (get_tiger_polygons net_places_only places_layer "1=1"
                      fetched_fields initial_world))
       = stdout initial_world ++ lines.
Proof.
  apply (fetcher_touches_only_its_layer net_places_only places_layer "1=1"
           fetched_fields initial_world countysubs_layer).
  vm_compute. discriminate.
Defined.

Lemma non_object_body_escapes_witness :
  exists e,
    get_tiger_polygons net_array countysubs_layer countysubs_where fetched_fields
                       initial_world
    = (inl e, initial_world)
    /\ exn_cls e = TypeError.
Proof.
  apply (non_object_body_escapes net_array countysubs_layer countysubs_where
           fetched_fields response_array
           "list indices must be integers or slices, not str" initial_world).
  - reflexivity.
  - vm_compute. reflexivity.
  - reflexivity.
Defined.

Lemma parse_clause_without_response_witness :
  exists e',
    get_tiger_polygons net_value_error places_layer "1=1" fetched_fields initial_world
    = (inl e',
       mkWorld (geo_data initial_world)
               (stdout initial_world
                ++ [("❌ Failed to parse response JSON: "
                     ++ "check_hostname requires server_hostname")%string]))
    /\ exn_cls e' = UnboundLocalError.
Proof.
  apply (parse_clause_without_response net_value_error places_layer "1=1"
           fetched_fields
           (mkExn ValueError "check_hostname requires server_hostname")
           initial_world).
  - reflexivity.
  - reflexivity.
  - reflexivity.
Defined.

(** ** The pool *)

Module PoolMore.
Import FetchFacts FetchMore PoolFacts.

Lemma places_task_result net w :
  fst (places_task net w)
  = match uncaught (net places_call) with Some e => inl e | None => inr tt end.
Proof. apply get_tiger_polygons_result. Qed.

Lemma countysubs_task_result net w :
  fst (countysubs_task net w)
  = match uncaught (net countysubs_call) with Some e => inl e | None => inr tt end.
Proof. apply get_tiger_polygons_result. Qed.

Lemma places_task_geo_data net w :
  geo_data (snd (places_task net w))
  = store_into places_layer (net places_call) (geo_data w).
Proof. apply get_tiger_polygons_geo_data. Qed.

Lemma countysubs_task_geo_data net w :
  geo_data (snd (countysubs_task net w))
  = store_into countysubs_layer (net countysubs_call) (geo_data w).
Proof. apply get_tiger_polygons_geo_data. Qed.

Lemma world_eta w : mkWorld (geo_data w) (stdout w) = w.
Proof. now destruct w. Qed.

Lemma fetch_all_world net s w :
  fetch_all net s w
  = (inr tt,
     mkWorld (geo_data (snd (run_pool net s w)))
       (stdout (snd (run_pool net s w))
        ++ match uncaught (net places_call), uncaught (net countysubs_call) with
           | Some e1, _ => [master_line e1]
           | None, Some e2 => [master_line e2]
           | None, None => []
           end)).
Proof.
  unfold fetch_all, run_pool.
  destruct s; unfold try_except, bind, submit, future_result, lift, ret.
  - pose proof (places_task_result net w) as H1.
    destruct (places_task net w) as [r1 w1].
    pose proof (countysubs_task_result net w1) as H2.
    destruct (countysubs_task net w1) as [r2 w2].
    cbn [fst snd] in *. subst r1 r2.
    destruct (uncaught (net places_call)), (uncaught (net countysubs_call));
      cbn [fst snd]; unfold print, master_line; cbn [geo_data stdout];
      try reflexivity.
    now rewrite app_nil_r, world_eta.
  - pose proof (countysubs_task_result net w) as H2.
    destruct (countysubs_task net w) as [r2 w2].
    pose proof (places_task_result net w2) as H1.
    destruct (places_task net w2) as [r1 w1].
    cbn [fst snd] in *. subst r1 r2.
    destruct (uncaught (net places_call)), (uncaught (net countysubs_call));
      cbn [fst snd]; unfold print, master_line; cbn [geo_data stdout];
      try reflexivity.
    now rewrite app_nil_r, world_eta.
Qed.

Lemma run_pool_geo_data net s w :
  geo_data (snd (run_pool net s w))
  = match s with
    | PlacesFirst =>
        store_into countysubs_layer (net countysubs_call)
          (store_into places_layer (net places_call) (geo_data w))
    | CountysubsFirst =>
        store_into places_layer (net places_call)
          (store_into countysubs_layer (net countysubs_call) (geo_data w))
    end.
Proof.
  unfold run_pool. destruct s; unfold bind, submit, ret.
  - pose proof (places_task_geo_data net w) as H1.
    destruct (places_task net w) as [r1 w1].
    pose proof (countysubs_task_geo_data net w1) as H2.
    destruct (countysubs_task net w1) as [r2 w2].
    cbn [fst snd] in *. now rewrite H2, H1.
  - pose proof (countysubs_task_geo_data net w) as H2.
    destruct (countysubs_task net w) as [r2 w2].
    pose proof (places_task_geo_data net w2) as H1.
    destruct (places_task net w2) as [r1 w1].
    cbn [fst snd] in *. now rewrite H1, H2.
Qed.

Lemma run_pool_fetched_geo_data net s :
  geo_data (snd (run_pool net s initial_world)) = fetched_geo_data net s.
Proof.
  rewrite run_pool_geo_data. unfold fetched_geo_data, store_into, stored_entry.
  destruct s; destruct (fetched_rows (net places_call)),
    (fetched_rows (net countysubs_call)); reflexivity.
Qed.

Lemma store_into_get layer r d key :
  dict_get (store_into layer r d) key
  = if (key =? layer)%Z then
      match fetched_rows r with
      | Some rows => Some rows
      | None => dict_get d key
      end
    else dict_get d key.
Proof.
  unfold store_into. destruct (Z.eqb_spec key layer) as [->|Hne].
  - destruct (fetched_rows r); [apply dict_get_set|reflexivity].
  - destruct (fetched_rows r); [now apply dict_get_set_other|reflexivity].
Qed.

End PoolMore.

Section PoolProperties.
Import FetchFacts FetchMore PoolFacts PoolMore.


(** X6.  Started on the empty mapping, the two fetches leave exactly the
    tables that were fetched, in the order the workers wrote them;
    [pd.concat] returns their rows in that order, as many as the two
    layers fetched together, and raises when no layer was stored. *)
Theorem concat_follows_write_order (net : Network) (s : schedule) :
  exists w,
    geo_data w = fetched_geo_data net s
    /\ fetch_and_concat net s initial_world
       = (match fetched_geo_data net s with
          | [] => inl (mkExn ValueError "No objects to concatenate")
          | _ :: _ => inr (concat (values (fetched_geo_data net s)))
          end, w)
    /\ length (concat (values (fetched_geo_data net s)))
       = (length (concat (values (stored_entry places_layer (net places_call))))
          + length (concat (values (stored_entry countysubs_layer
                                                 (net countysubs_call)))))%nat.
Proof.
  unfold fetch_and_concat, bind. rewrite fetch_all_world.
  unfold read_geo_data. cbn [geo_data]. rewrite run_pool_fetched_geo_data.
  exists (mkWorld (fetched_geo_data net s)
            (stdout (snd (run_pool net s initial_world))
             ++ match uncaught (net places_call), uncaught (net countysubs_call) with
                | Some e1, _ => [master_line e1]
                | None, Some e2 => [master_line e2]
                | None, None => []
                end)).
  split; [|split].
  - reflexivity.
  - destruct (fetched_geo_data net s); reflexivity.
  - unfold fetched_geo_data, values. destruct s;
      rewrite map_app, concat_app, length_app; lia.
Qed.

(** X7.  Which tables the mapping holds does not depend on which worker
    writes first: after the parallel fetch a lookup of any key gives the
    same table under both orders, from any starting mapping. *)
Theorem mapping_independent_of_schedule (net : Network) (w : World) (key : Z) :
  dict_get (geo_data (snd (fetch_all net PlacesFirst w))) key
  = dict_get (geo_data (snd (fetch_all net CountysubsFirst w))) key.
Proof.
  rewrite !fetch_all_world. cbn [snd geo_data]. rewrite !run_pool_geo_data.
  rewrite !store_into_get.
  unfold places_layer, countysubs_layer.
  destruct (Z.eqb_spec key 22) as [E22|H22], (Z.eqb_spec key 28) as [E28|H28];
    try reflexivity.
  exfalso. lia.
Qed.

End PoolProperties.

Example pool_two_failures :
  stdout (snd (fetch_all net_array PlacesFirst initial_world))
  = ["❌ A master fetching task failed: list indices must be integers or slices, not str"%string].
Proof. vm_compute. reflexivity. Qed.

Example concat_order_depends_on_schedule :
  fst (fetch_and_concat net_both PlacesFirst initial_world)
  = inr [boulder; ward; lyons; washington]
  /\ fst (fetch_and_concat net_both CountysubsFirst initial_world)
     = inr [lyons; washington; boulder; ward].
Proof. vm_compute. split; reflexivity. Qed.

(** ** The deciles *)

Module DecileMore.
Import Qcut SortFacts QcutFacts DecileFacts.

Lemma insert_sorted_comm x y l :
  insert_sorted x (insert_sorted y l) = insert_sorted y (insert_sorted x l).
Proof.
  induction l as [|a l IH]; simpl.
  - destruct (Z.leb_spec x y), (Z.leb_spec y x); try reflexivity; try lia.
    assert (x = y) by lia. now subst.
  - destruct (Z.leb_spec y a), (Z.leb_spec x a); simpl;
      repeat match goal with
             | |- context [?u <=? ?v] => destruct (Z.leb_spec u v); simpl
             end;
      try reflexivity; try lia.
    + assert (x = y) by lia. now subst.
    + now rewrite IH.
Qed.

Lemma sort_Permutation l l' : Permutation l l' -> sort l = sort l'.
Proof.
  induction 1; simpl.
  - reflexivity.
  - now rewrite IHPermutation.
  - apply insert_sorted_comm.
  - congruence.
Qed.

Lemma bins_of_Permutation x x' q : Permutation x x' -> bins_of x q = bins_of x' q.
Proof.
  intros H. unfold bins_of, quantile_edges. now rewrite (sort_Permutation x x' H).
Qed.

Lemma decile_of_Permutation x x' v : Permutation x x' -> decile_of x v = decile_of x' v.
Proof.
  intros H. unfold decile_of. now rewrite (bins_of_Permutation x x' 20 H).
Qed.

Lemma filter_Permutation {A} (p : A -> bool) l l' :
  Permutation l l' -> Permutation (filter p l) (filter p l').
Proof.
  induction 1; simpl.
  - reflexivity.
  - destruct (p x); [now apply perm_skip|assumption].
  - destruct (p x), (p y); try reflexivity. apply perm_swap.
  - etransitivity; eassumption.
Qed.

Lemma group_column_Permutation t t' s :
  Permutation t t' -> Permutation (group_column t s) (group_column t' s).
Proof.
  intros H. unfold group_column. now apply Permutation_map, filter_Permutation.
Qed.

End DecileMore.

Module TableMore.
Import Qcut SortFacts QcutFacts DecileFacts DecileMore.

Lemma assign_decile_same_group t t' (r : Row) :
  In (feature r) t ->
  Permutation (group_column t (STATE r)) (group_column t' (STATE r)) ->
  In r (assign_decile t') -> In r (assign_decile t).
Proof.
  intros Hf Hp Hr. apply In_assign_decile in Hr. destruct Hr as [_ Hd].
  apply In_assign_decile. split; [assumption|].
  rewrite Hd. symmetry. now apply decile_of_Permutation.
Qed.

Lemma assign_decile_Permutation t t' (r : Row) :
  Permutation t t' -> In r (assign_decile t) <-> In r (assign_decile t').
Proof.
  intros Hp. split; intros Hr.
  - apply (assign_decile_same_group t' t).
    + apply In_assign_decile in Hr. eapply Permutation_in; [exact Hp|apply Hr].
    + now apply group_column_Permutation, Permutation_sym.
    + exact Hr.
  - apply (assign_decile_same_group t t').
    + apply In_assign_decile in Hr. eapply Permutation_in;
        [apply Permutation_sym; exact Hp|apply Hr].
    + now apply group_column_Permutation.
    + exact Hr.
Qed.

Lemma group_column_other_states t extra s :
  (forall f, In f extra -> STATE f <> s) ->
  group_column (t ++ extra) s = group_column t s.
Proof.
  intros H. rewrite group_column_app.
  assert (E : group_column extra s = []).
  { unfold group_column. induction extra as [|f extra IH]; simpl; [reflexivity|].
    unfold same_state at 1. destruct (String.eqb_spec (STATE f) s) as [Es|_].
    - exfalso. apply (H f); [now left|exact Es].
    - apply IH. intros g Hg. apply H. now right. }
  rewrite E. apply app_nil_r.
Qed.

End TableMore.

Section DecileProperties.
Import Qcut SortFacts QcutFacts DecileFacts ExactFacts DecileMore TableMore.

(** X9.  Ties are never split: two rows of the same state with the same
    land area have the same decile. *)
Theorem equal_areas_equal_deciles (t : Table) (r1 r2 : Row) :
  In r1 (assign_decile t) -> In r2 (assign_decile t) ->
  STATE r1 = STATE r2 -> AREALAND r1 = AREALAND r2 ->
  DECILE r1 = DECILE r2.
Proof.
  intros H1 H2 Hs Ha. apply In_assign_decile in H1, H2.
  destruct H1 as [_ ->], H2 as [_ ->]. now rewrite Hs, Ha.
Qed.


(** X12.  The deciles do not depend on the order of the rows: two tables
    with the same rows in a different order give every row the same
    decile. *)
Theorem deciles_independent_of_row_order (t t' : Table) (r : Row) :
  Permutation t t' ->
  (In r (assign_decile t) <-> In r (assign_decile t')).
Proof. apply assign_decile_Permutation. Qed.

(** X13.  The deciles of a state do not depend on the rows of other
    states: adding rows of other states to the table leaves the decile of
    every row of the state as it was. *)
Theorem deciles_independent_of_other_states (t extra : Table) (r : Row) :
  (forall f, In f extra -> STATE f <> STATE r) ->
  (In r (assign_decile (t ++ extra)) <-> In r (assign_decile t)).
Proof.
  intros Hx. rewrite !In_assign_decile, group_column_other_states by assumption.
  rewrite in_app_iff. split; [|tauto].
  intros [[Hf|Hf] Hd]; [tauto|]. exfalso. now apply (Hx _ Hf).
Qed.

End DecileProperties.

Lemma equal_areas_equal_deciles_witness : DECILE ashaway_row = DECILE bradford_row.
Proof.
  apply (equal_areas_equal_deciles ri_table ashaway_row bradford_row).
  - vm_compute. left. reflexivity.
  - vm_compute. right. left. reflexivity.
  - reflexivity.
  - reflexivity.
Defined.


Lemma deciles_independent_of_row_order_witness :
  In boulder_row (assign_decile colorado_table)
  <-> In boulder_row (assign_decile [ward; boulder; lyons]).
Proof.
  apply (deciles_independent_of_row_order colorado_table [ward; boulder; lyons]
                                          boulder_row).
  apply perm_swap.
Defined.

Lemma deciles_independent_of_other_states_witness :
  In boulder_row (assign_decile (colorado_table ++ one_place_table))
  <-> In boulder_row (assign_decile colorado_table).
Proof.
  apply (deciles_independent_of_other_states colorado_table one_place_table
                                             boulder_row).
  intros f [<-|[]]. vm_compute. discriminate.
Defined.

(** ** The cleanup and the labels *)

Module RenderMore.
Import LabelFacts.

Lemma cube_le (d d' : Z) : d <= d' -> d ^ 3 <= d' ^ 3.
Proof.
  intros H. replace (d ^ 3) with (d * d * d) by ring.
  replace (d' ^ 3) with (d' * d' * d') by ring.
  destruct (Z.le_gt_cases 0 d) as [Hd|Hd].
  - assert (d * d <= d' * d') by nia. nia.
  - destruct (Z.le_gt_cases 0 d') as [Hd'|Hd'].
    + assert (d * d * d <= 0) by nia. assert (0 <= d' * d' * d') by nia. lia.
    + assert (d' * d' <= d * d) by nia. nia.
Qed.

Lemma cubic_term_le (c c' : Z) :
  c <= c' ->
  (9 * (inject_Z c / inject_Z (20 ^ 3)) <= 9 * (inject_Z c' / inject_Z (20 ^ 3)))%Q.
Proof.
  intros H. change (20 ^ 3) with 8000.
  unfold Qle. cbn [Qnum Qden Qmult Qdiv Qinv inject_Z]. lia.
Qed.

Lemma cubic_term_le_3 (c : Z) :
  (9 * (inject_Z c / inject_Z (20 ^ 3)) <= 3)%Q <-> c <= 2666.
Proof.
  change (20 ^ 3) with 8000.
  unfold Qle. cbn [Qnum Qden Qmult Qdiv Qinv inject_Z]. lia.
Qed.

Lemma fontsize_Some_floor (d : Z) : (fontsize (Some d) == 3)%Q <-> d <= 13.
Proof.
  unfold fontsize. split.
  - intros H. destruct (Z.le_gt_cases d 13) as [|Hd]; [assumption|exfalso].
    assert (Hc : 14 ^ 3 <= d ^ 3) by (apply cube_le; lia).
    change (14 ^ 3) with 2744 in Hc.
    assert (Hv : ~ (9 * (inject_Z (d ^ 3) / inject_Z (20 ^ 3)) <= 3)%Q)
      by (rewrite cubic_term_le_3; lia).
    apply Hv. rewrite <- H. apply Q.le_max_r.
  - intros Hd. assert (Hc : d ^ 3 <= 13 ^ 3) by (apply cube_le; lia).
    change (13 ^ 3) with 2197 in Hc.
    apply Q.max_l. apply cubic_term_le_3. lia.
Qed.

Lemma fontsize_Some_le (d d' : Z) :
  d <= d' -> (fontsize (Some d) <= fontsize (Some d'))%Q.
Proof.
  intros H. unfold fontsize. apply Q.max_le_compat_l.
  apply cubic_term_le. now apply cube_le.
Qed.

Lemma sentinel_cleanup_free gdf : Forall sentinel_free (sentinel_cleanup gdf).
Proof.
  unfold sentinel_cleanup. apply Forall_forall. intros r Hr.
  apply in_map_iff in Hr. destruct Hr as (r0 & <- & _).
  unfold sentinel_free, sentinel_mask.
  destruct (B19013_001E r0) as [v|] eqn:E.
  - destruct (Z.eqb_spec v sentinel) as [->|NE]; cbn [B19013_001E].
    + discriminate.
    + rewrite E. intros [= Hv]. contradiction.
  - rewrite E. discriminate.
Qed.

Lemma sentinel_cleanup_fixed gdf :
  Forall sentinel_free gdf -> sentinel_cleanup gdf = gdf.
Proof.
  unfold sentinel_cleanup. induction 1 as [|r gdf Hr _ IH]; simpl; [reflexivity|].
  rewrite IH. f_equal. unfold sentinel_free in Hr. unfold sentinel_mask.
  destruct (B19013_001E r) as [v|]; [|reflexivity].
  destruct (Z.eqb_spec v sentinel) as [->|NE]; [now elim Hr|reflexivity].
Qed.

End RenderMore.

Section RenderProperties.
Import LabelFacts RenderMore DecileFacts.

(** X14.  After the cleanup no row holds the sentinel, and cleaning a
    cleaned table changes nothing. *)
Theorem sentinel_cleanup_removes_every_sentinel (gdf : list IncomeRow) :
  Forall sentinel_free (sentinel_cleanup gdf)
  /\ sentinel_cleanup (sentinel_cleanup gdf) = sentinel_cleanup gdf.
Proof.
  split; [apply sentinel_cleanup_free|].
  apply sentinel_cleanup_fixed, sentinel_cleanup_free.
Qed.

(** X15.  The floor of the font size is what a label gets exactly for the
    deciles up to 13: from decile 14 on the cubic term is above 3. *)
Theorem fontsize_floor_up_to_13 (d : Z) : (fontsize (Some d) == 3)%Q <-> d <= 13.
Proof. apply fontsize_Some_floor. Qed.

(** X16.  The font size never decreases when the decile grows. *)
Theorem fontsize_monotone (d d' : Z) :
  d <= d' -> (fontsize (Some d) <= fontsize (Some d'))%Q.
Proof. apply fontsize_Some_le. Qed.

(** X17.  The labels drawn for a table whose deciles were assigned by the
    script have one of two font sizes: 9 for decile 20 and 61731/8000
    (7.716375) for decile 19; the floor of 3 is never what a drawn label
    gets. *)
Theorem drawn_labels_have_two_sizes (e : Extent) (t : Table) (l : TextArtist) :
  In l (labels (draw_centroids e (assign_decile t))) ->
  (text_fontsize l == 9)%Q \/ (text_fontsize l == 61731 # 8000)%Q.
Proof.
  unfold draw_centroids. cbn [labels]. rewrite in_map_iff.
  intros (r & <- & Hr). unfold visible_centroids in Hr.
  apply filter_In in Hr. destruct Hr as [Hr Hv].
  apply visible_mask_true in Hv. destruct Hv as (_ & _ & d & Hd & H19).
  apply In_assign_decile in Hr. destruct Hr as [_ Hdec].
  rewrite Hd in Hdec. symmetry in Hdec. apply decile_of_range in Hdec.
  pose proof (buckets_le (group_column t (STATE r))) as Hk.
  cbn [label_of text_fontsize]. rewrite Hd.
  assert (Hcases : d = 19 \/ d = 20) by lia.
  destruct Hcases as [-> | ->]; [right|left]; reflexivity.
Qed.

End RenderProperties.

Lemma fontsize_monotone_witness : (fontsize (Some 19%Z) <= fontsize (Some 20%Z))%Q.
Proof. apply (fontsize_monotone 19 20). lia. Defined.

Lemma drawn_labels_have_two_sizes_witness :
  (text_fontsize (label_of boulder_row) == 9)%Q
  \/ (text_fontsize (label_of boulder_row) == 61731 # 8000)%Q.
Proof.
  apply (drawn_labels_have_two_sizes front_range colorado_table (label_of boulder_row)).
  vm_compute. left. reflexivity.
Defined.

(** ** The run *)

Module RunMore.
Import FetchFacts FetchMore PoolFacts PoolMore DecileFacts TableMore.

Lemma fetch_and_concat_world net s :
  fetch_and_concat net s initial_world
  = (match fetched_geo_data net s with
     | [] => inl (mkExn ValueError "No objects to concatenate")
     | _ :: _ => inr (concat (values (fetched_geo_data net s)))
     end,
     mkWorld (fetched_geo_data net s)
       (stdout (snd (run_pool net s initial_world))
        ++ match uncaught (net places_call), uncaught (net countysubs_call) with
           | Some e1, _ => [master_line e1]
           | None, Some e2 => [master_line e2]
           | None, None => []
           end)).
Proof.
  unfold fetch_and_concat, bind. rewrite fetch_all_world.
  unfold read_geo_data. cbn [geo_data]. rewrite run_pool_fetched_geo_data.
  destruct (fetched_geo_data net s); reflexivity.
Qed.

Lemma run_script_completed i :
  concat (values (fetched_geo_data (net i) (sched i))) <> [] ->
  census_table i <> [] ->
  exists w,
    run_script i
    = (inr (mkOutcome
              (assign_decile (concat (values (fetched_geo_data (net i) (sched i)))))
              (sentinel_cleanup (census_table i))
              (draw_centroids (plotted_extent i (sentinel_cleanup (census_table i)))
                 (assign_decile
                    (concat (values (fetched_geo_data (net i) (sched i))))))),
       w).
Proof.
  intros Hne Hc. unfold run_script, script, bind. rewrite fetch_and_concat_world.
  destruct (fetched_geo_data (net i) (sched i)) as [|p g] eqn:Eg;
    [now elim Hne|].
  unfold post_process.
  destruct (concat (values (p :: g))) as [|f tbl] eqn:Et; [now elim Hne|].
  unfold ret, clean_income.
  destruct (census_table i) as [|c census] eqn:Ec; [now elim Hc|].
  unfold ret. eexists. reflexivity.
Qed.

Lemma run_script_inv i o w :
  run_script i = (inr o, w) ->
  concat (values (fetched_geo_data (net i) (sched i))) <> []
  /\ census_table i <> []
  /\ o = mkOutcome
           (assign_decile (concat (values (fetched_geo_data (net i) (sched i)))))
           (sentinel_cleanup (census_table i))
           (draw_centroids (plotted_extent i (sentinel_cleanup (census_table i)))
              (assign_decile (concat (values (fetched_geo_data (net i) (sched i)))))).
Proof.
  unfold run_script, script, bind. rewrite fetch_and_concat_world.
  destruct (fetched_geo_data (net i) (sched i)) as [|p g] eqn:Eg; [discriminate|].
  unfold post_process.
  destruct (concat (values (p :: g))) as [|f tbl] eqn:Et; [discriminate|].
  unfold ret, clean_income.
  destruct (census_table i) as [|c census] eqn:Ec; [discriminate|].
  unfold ret. intros [= <- _]. split; [discriminate|]. split; [discriminate|reflexivity].
Qed.

Lemma fetched_tables_Permutation net :
  Permutation (concat (values (fetched_geo_data net PlacesFirst)))
              (concat (values (fetched_geo_data net CountysubsFirst))).
Proof.
  unfold fetched_geo_data, values. rewrite !map_app, !concat_app.
  apply Permutation_app_comm.
Qed.

Lemma draw_centroids_labels_In e stacked stacked' l :
  (forall r, In r stacked <-> In r stacked') ->
  In l (labels (draw_centroids e stacked)) ->
  In l (labels (draw_centroids e stacked')).
Proof.
  intros H. unfold draw_centroids, visible_centroids. cbn [labels].
  rewrite !in_map_iff. intros (r & Hl & Hr). exists r. split; [assumption|].
  apply filter_In in Hr. apply filter_In. split; [apply H|]; tauto.
Qed.

Lemma draw_centroids_markers_In e stacked stacked' m :
  (forall r, In r stacked <-> In r stacked') ->
  In m (markers (draw_centroids e stacked)) ->
  In m (markers (draw_centroids e stacked')).
Proof.
  intros H. unfold draw_centroids, visible_centroids. cbn [markers].
  rewrite !in_map_iff. intros (r & Hl & Hr). exists r. split; [assumption|].
  apply filter_In in Hr. apply filter_In. split; [apply H|]; tauto.
Qed.

End RunMore.

Section RunProperties.
Import RunMore TableMore.

(** X19.  Which worker finishes first changes the order of the rows and
    nothing else: if the run goes through with the places written first,
    it goes through with the county subdivisions written first, with the
    same rows and deciles in the stacked table, the same income table, and
    the same markers and labels on the figure. *)
Theorem figure_independent_of_schedule (net0 : Network)
    (census : list IncomeRow) (extent : list IncomeRow -> Extent)
    (o1 : Outcome) (w1 : World) :
  run_script (mkInputs net0 PlacesFirst census extent) = (inr o1, w1) ->
  exists o2 w2,
    run_script (mkInputs net0 CountysubsFirst census extent) = (inr o2, w2)
    /\ (forall r, In r (out_stacked o1) <-> In r (out_stacked o2))
    /\ out_gdf o1 = out_gdf o2
    /\ (forall l, In l (labels (out_figure o1)) <-> In l (labels (out_figure o2)))
    /\ (forall m, In m (markers (out_figure o1)) <-> In m (markers (out_figure o2))).
Proof.
  intros H1. apply run_script_inv in H1. cbn [net sched census_table plotted_extent] in H1.
  destruct H1 as (Hne & Hc & ->).
  pose proof (fetched_tables_Permutation net0) as Hp.
  assert (Hne2 : concat (values (fetched_geo_data net0 CountysubsFirst)) <> []).
  { intros E. rewrite E in Hp. apply Permutation_sym, Permutation_nil in Hp.
    contradiction. }
  destruct (run_script_completed (mkInputs net0 CountysubsFirst census extent) Hne2 Hc)
    as [w2 H2].
  cbn [net sched census_table plotted_extent] in H2.
  eexists. exists w2. split; [exact H2|]. cbn [out_stacked out_gdf out_figure].
  assert (Hrows : forall r,
            In r (assign_decile (concat (values (fetched_geo_data net0 PlacesFirst))))
            <-> In r (assign_decile
                        (concat (values (fetched_geo_data net0 CountysubsFirst)))))
    by (intros r; now apply assign_decile_Permutation).
  assert (Hrows' : forall r,
            In r (assign_decile (concat (values (fetched_geo_data net0 CountysubsFirst))))
            <-> In r (assign_decile
                        (concat (values (fetched_geo_data net0 PlacesFirst)))))
    by (intros r; symmetry; apply Hrows).
  split; [exact Hrows|]. split; [reflexivity|]. split.
  - intros l. split; now apply draw_centroids_labels_In.
  - intros m. split; now apply draw_centroids_markers_In.
Qed.

End RunProperties.

Lemma figure_independent_of_schedule_witness :
  exists o2 w2,
    run_script (inputs_both CountysubsFirst) = (inr o2, w2)
    /\ (forall r, In r (out_stacked outcome_both_places_first) <-> In r (out_stacked o2))
    /\ out_gdf outcome_both_places_first = out_gdf o2
    /\ (forall l, In l (labels (out_figure outcome_both_places_first))
                  <-> In l (labels (out_figure o2)))
    /\ (forall m, In m (markers (out_figure outcome_both_places_first))
                  <-> In m (markers (out_figure o2))).
Proof.
  apply (figure_independent_of_schedule net_both income_table (fun _ => front_range)
           outcome_both_places_first world_both_places_first).
  vm_compute. reflexivity.
Defined.

Example run_both_schedules :
  map NAME (map feature (out_stacked outcome_both_places_first))
  = ["Boulder"; "Ward"; "Lyons"; "Washington"]%string
  /\ map DECILE (out_stacked outcome_both_places_first)
     = [Some 20; Some 1; Some 10; None]
  /\ map text_s (labels (out_figure outcome_both_places_first)) = ["Boulder"%string].
Proof. vm_compute. repeat split. Qed.

(** ** The request *)

Module UrlFacts.

Lemma append_inj_l (p a b : string) : (p ++ a = p ++ b)%string -> a = b.
Proof.
  induction p as [|c p IH]; simpl; [trivial|]. intros [= H]. auto.
Qed.

Lemma length_append (a b : string) :
  String.length (a ++ b) = (String.length a + String.length b)%nat.
Proof. induction a as [|c a IH]; simpl; [reflexivity|]. now rewrite IH. Qed.

Lemma append_inj_r (s a b : string) : (a ++ s = b ++ s)%string -> a = b.
Proof.
  revert b. induction a as [|c a IH]; intros b H.
  - destruct b as [|c' b]; [reflexivity|exfalso].
    apply (f_equal String.length) in H. simpl in H. rewrite length_append in H. lia.
  - destruct b as [|c' b].
    + exfalso. apply (f_equal String.length) in H. simpl in H.
      rewrite length_append in H. lia.
    + simpl in H. injection H as -> H. f_equal. auto.
Qed.

Lemma str_of_Z_inj (z z' : Z) : str_of_Z z = str_of_Z z' -> z = z'.
Proof.
  unfold str_of_Z. intros H. apply DecimalZ.to_int_inj.
  apply (f_equal NilEmpty.int_of_string) in H.
  rewrite !NilEmpty.isi in H. now injection H.
Qed.

End UrlFacts.

Section RequestProperties.
Import UrlFacts.

(** X20.  Requests for different layers go to different URLs of the same
    service: the layer id can be read back from the URL. *)
Theorem different_layers_different_urls (service : string) (layer_id layer_id' : Z) :
  layer_id <> layer_id' ->
  API_URL service layer_id <> API_URL service layer_id'.
Proof.
  intros Hne H. apply Hne. unfold API_URL in H.
  apply append_inj_l, append_inj_l, append_inj_l, append_inj_r in H.
  now apply str_of_Z_inj.
Qed.

End RequestProperties.

Lemma different_layers_different_urls_witness :
  API_URL default_service places_layer <> API_URL default_service countysubs_layer.
Proof.
  apply (different_layers_different_urls default_service places_layer countysubs_layer).
  vm_compute. discriminate.
Defined.
